(** * code-rain: green characters raining down in a curses terminal

    A shallow embedding of [main.py] and the properties of its palette,
    glyph source, falling columns and column container.

    Conventions of the embedding.
    - Python [int] is [Z]; Python [float] (rows, speeds, seconds) is the
      exact rational type [Q]. Floats are taken finite and their rounding
      is not modelled; every float a statement below computes with
      explicitly is a small integer, on which binary64 arithmetic is
      exact.
    - A Python [str] is the list of its code points.
    - The [random] module is a tape of raw draws read left to right; the
      curses screen is the list of calls issued to it, oldest first.
    - Raised exceptions are values of [exn]; the world a call leaves behind
      is kept when it raises. *)

From Stdlib Require Import ZArith QArith Bool Ascii String List Sorted Lia Lqa.
From Equations Require Import Equations.
Import ListNotations.

Local Open Scope Z_scope.

(** ** Exceptions and results *)

Inductive exn : Type :=
| IndexError
| ZeroDivisionError
| ValueError
| TypeError
| SystemExit (code : Z).

Inductive result (A : Type) : Type :=
| Ok (a : A)
| Raise (e : exn).

Arguments Ok {A} a.
Arguments Raise {A} e.

(** ** Strings, colour handles, screen events *)

(** A Python string, as the sequence of its code points. *)
Definition str : Type := list Z.

(** A string literal of the source. *)
Definition lit (s : string) : str :=
  map (fun a => Z.of_N (N_of_ascii a)) (list_ascii_of_string s).

(** [chr(c)] *)
Definition chr (c : Z) : str := [c].

(** [' ' * n] *)
Definition spaces (n : Z) : str := repeat 32 (Z.to_nat n).

(** The attribute [curses.color_pair(color_id)] stands for. *)
Inductive attr : Type :=
| color_pair (color_id : Z).

Definition COLOR_BLACK : Z := 0.

(** The calls the program issues to curses, the clock and standard error. *)
Inductive event : Type :=
| CursSet (visibility : Z)
| Nodelay (flag : Z)
| StartColor
| InitColor (color_id r g b : Z)
| InitPair (pair_id fg bg : Z)
| Addstr (y x : Z) (s : str) (a : option attr)
| Refresh
| Clear
| Sleep (secs : Q)
| PrintStderr (msg : str).

(** ** The world: random tape and output trace *)

Record World : Type := mkWorld {
  tape : nat -> N;    (* raw draws of the random generator *)
  pos : nat;          (* draws consumed so far *)
  out : list event    (* calls issued so far, oldest first *)
}.

(** What curses reports about the terminal. *)
Record Screen : Type := mkScreen {
  LINES : Z;                 (* screen.getmaxyx()[0] *)
  COLS : Z;                  (* screen.getmaxyx()[1] *)
  COLORS : Z;                (* curses.COLORS *)
  has_colors : bool;         (* curses.has_colors() *)
  can_change_color : bool    (* curses.can_change_color() *)
}.

Definition getmaxyx (screen : Screen) : Z * Z := (LINES screen, COLS screen).

(** ** A state monad with exceptions *)

Definition M (A : Type) : Type := World -> result A * World.

Definition ret {A} (a : A) : M A := fun w => (Ok a, w).

Definition raise {A} (e : exn) : M A := fun w => (Raise e, w).

Definition bind {A B} (m : M A) (k : A -> M B) : M B :=
  fun w =>
    match m w with
    | (Ok a, w') => k a w'
    | (Raise e, w') => (Raise e, w')
    end.

Declare Scope py_scope.
Delimit Scope py_scope with py.
Notation "x <- m ;; k" := (bind m (fun x => k))
  (at level 61, m at next level, right associativity) : py_scope.
Notation "' pat <- m ;; k" := (bind m (fun x => match x with pat => k end))
  (at level 61, pat pattern, m at next level, right associativity) : py_scope.
Notation "m ;; k" := (bind m (fun _ => k))
  (at level 61, right associativity) : py_scope.
Local Open Scope py_scope.

Definition emit (e : event) : M unit :=
  fun w => (Ok tt, mkWorld (tape w) (pos w) (out w ++ [e])).

(** [[f(a) for a in l]] and [for a in l: f(a)], left to right. *)
Fixpoint mapM {A B} (f : A -> M B) (l : list A) : M (list B) :=
  match l with
  | [] => ret []
  | a :: l' => b <- f a ;; bs <- mapM f l' ;; ret (b :: bs)
  end.

(** [enumerate(l, start)] *)
Fixpoint enumerate {A} (start : Z) (l : list A) : list (Z * A) :=
  match l with
  | [] => []
  | a :: l' => (start, a) :: enumerate (start + 1) l'
  end.

(** ** Python builtins *)

(** [len(range(start, stop, step))] for a nonzero step. *)
Definition range_len (start stop step : Z) : Z :=
  if 0 <? step then
    if start <? stop then (stop - start - 1) / step + 1 else 0
  else
    if stop <? start then (start - stop - 1) / (- step) + 1 else 0.

Definition range_items (start stop step : Z) : list Z :=
  map (fun i => start + Z.of_nat i * step)
      (seq 0 (Z.to_nat (range_len start stop step))).

(** [range(start, stop, step)] *)
Definition range (start stop step : Z) : M (list Z) :=
  if step =? 0 then raise ValueError else ret (range_items start stop step).

(** [seq[i]] for [i >= 0] *)
Definition getitem {A} (seq : list A) (i : nat) : M A :=
  match nth_error seq i with
  | Some a => ret a
  | None => raise IndexError
  end.

(** [int(q)]: truncation toward zero. *)
Definition int (q : Q) : Z := Z.quot (Qnum q) (Zpos (Qden q)).

(** [int(a / b)] for integers [a] and [b] whose float quotient truncates
    like the exact one, which covers [1000 / b]. *)
Definition int_div (a b : Z) : M Z :=
  if b =? 0 then raise ZeroDivisionError else ret (Z.quot a b).

(** ** The [random] module *)

Definition draw : M N :=
  fun w => (Ok (tape w (pos w)), mkWorld (tape w) (S (pos w)) (out w)).

(** [random.random()]: a multiple of [2^-53] in [[0, 1)]. *)
Definition random : M Q :=
  k <- draw ;; ret (Z.of_N (k mod 9007199254740992) # 9007199254740992).

(** The index [random.choice] draws below [n], for [n > 0]. *)
Definition randbelow (n : nat) : M nat :=
  k <- draw ;; ret (N.to_nat (k mod N.of_nat n)).

(** [random.choice(seq)] *)
Definition choice {A} (seq : list A) : M A :=
  match seq with
  | [] => raise IndexError
  | d :: _ => i <- randbelow (length seq) ;; ret (nth i seq d)
  end.

(** [random.uniform(a, b)] *)
Definition uniform (a b : Q) : M Q :=
  u <- random ;; ret (a + (b - a) * u)%Q.

(** ** Character sets *)

Definition ascii_lowercase : str := range_items 97 123 1.
Definition ascii_uppercase : str := range_items 65 91 1.
Definition ascii_letters : str := ascii_lowercase ++ ascii_uppercase.
Definition digits : str := range_items 48 58 1.
Definition punctuation : str :=
  range_items 33 48 1 ++ range_items 58 65 1
  ++ range_items 91 97 1 ++ range_items 123 127 1.

Definition LATIN : list str := map chr (ascii_letters ++ digits ++ punctuation).
Definition KATAKANA : list Z := range_items 12448 12543 1.  (* 0x30a0, 0x30ff *)
Definition HIRAGANA : list Z := range_items 12353 12439 1.  (* 0x3041, 0x3097 *)
Definition KANGXI : list Z := range_items 12032 12245 1.    (* 0x2f00, 0x2fd5 *)
Definition NON_LATIN : list str := map chr (KATAKANA ++ HIRAGANA ++ KANGXI).

(** [random_character(latin_chance)] *)
Definition random_character (latin_chance : Q) : M str :=
  u <- random ;;
  if Qlt_le_dec u latin_chance then
    a <- choice LATIN ;; b <- choice LATIN ;; ret (a ++ b)
  else
    choice NON_LATIN.

(** The default [latin_chance=0.6], as the binary64 number the literal
    denotes. *)
Definition default_latin_chance : Q := 5404319552844595 # 9007199254740992.

(** ** Character: single character in a Column *)

Module Character.

Record t : Type := mk {
  y : Q;
  x : Z;
  symbol : str;
  color : attr
}.

Definition __init__ (start_pos : Z * Z) (color : attr) (symbol : option str)
  : M t :=
  symbol <- match symbol with
            | None => random_character default_latin_chance
            | Some s => ret s
            end ;;
  ret (mk (inject_Z (fst start_pos)) (snd start_pos) symbol color).

Definition set_y (char : t) (y : Q) : t :=
  mk y (x char) (symbol char) (color char).

Definition set_symbol (char : t) (symbol : str) : t :=
  mk (y char) (x char) symbol (color char).

End Character.

(** ** Column: characters falling down with a constant speed *)

Definition is_on_screen (max_y y : Z) : bool := (0 <=? y) && (y <? max_y).

Module Column.

Record t : Type := mk {
  min_falling_speed : Q;
  characters : list Character.t;
  width : Z
}.

Definition __init__ (head : Z * Z) (colors : list attr)
           (min_falling_speed : Q) (width : Z) : M t :=
  characters <-
    mapM (fun '(dy, color) =>
            Character.__init__ (fst head - dy, snd head) color None)
         (enumerate 0 colors) ;;
  ret (mk min_falling_speed characters width).

(** The locals [still_visible], [y], [x] of [step]. *)
Definition locals : Type := bool * (Z * Z).

(** The [for char in self.characters] loop of [step]. *)
Fixpoint step_for (max_y : Z) (speed : Q) (chars : list Character.t)
         (l : locals) : M (list Character.t * locals) :=
  match chars with
  | [] => ret ([], l)
  | char :: rest =>
      let y := int (Character.y char) in
      let x := Character.x char in
      let char' := Character.set_y char (Character.y char + speed)%Q in
      l' <- (if negb (is_on_screen max_y y) then ret (fst l, (y, x))
             else emit (Addstr y x (Character.symbol char)
                               (Some (Character.color char))) ;;
                  ret (true, (y, x))) ;;
      '(rest', l'') <- step_for max_y speed rest l' ;;
      ret (char' :: rest', l'')
  end.

(** The [while is_on_screen(y)] loop of [step]. *)
Equations step_while (max_y y x width : Z) : M unit
  by wf (Z.to_nat (y + 1)) lt :=
  step_while max_y y x width with Logic.inspect (is_on_screen max_y y) := {
    | exist _ true on_screen =>
        emit (Addstr y x (spaces width) None) ;;
        step_while max_y (y - 1) x width
    | exist _ false _ => ret tt }.
Next Obligation.
  unfold is_on_screen in on_screen.
  apply andb_prop in on_screen. destruct on_screen as [lo _].
  apply Z.leb_le in lo. lia.
Qed.

Definition step (self : t) (screen : Screen) : M (bool * t) :=
  let '(max_y, _) := getmaxyx screen in
  '(chars, (still_visible, (y, x))) <-
    step_for max_y (min_falling_speed self) (characters self)
             (false, (-1, -1)) ;;
  step_while max_y (y - 1) x (width self) ;;
  ret (still_visible, mk (min_falling_speed self) chars (width self)).

Definition reset (self : t) (new_min_falling_speed : Q) : M t :=
  chars <-
    mapM (fun '(dy, char) =>
            symbol <- random_character default_latin_chance ;;
            ret (Character.set_symbol
                   (Character.set_y char (inject_Z (- dy))) symbol))
         (enumerate 0 (characters self)) ;;
  ret (mk new_min_falling_speed chars (width self)).

End Column.

(** ** Rain: column container and terminal instance manipulation *)

Module Rain.

Record t : Type := mk {
  screen : Screen;
  time_step_sec : Q;
  min_falling_speed : Q;
  columns : option (list Column.t);
  color_pairs : option (list attr);
  column_spacing : Z
}.

Definition __init__ (screen : Screen) (time_step_sec min_falling_speed : Q)
  : t :=
  mk screen time_step_sec min_falling_speed None None 2.

(** The raw gradient [greens] of [generate_green_palette]. *)
Definition greens (COLORS : Z) : M (list (Z * Z * Z)) :=
  dg <- int_div 1000 (Z.min 8 (COLORS - 1)) ;;
  gs <- range 1000 dg (- dg) ;;
  ret (map (fun g => (0, g, 0)) gs).

(** The stretching of [generate_green_palette]: the colors at the ends
    fade in and out, the middle is one color repeated. *)
Definition stretch (color_pairs : list attr) (column_height : Z)
  : M (list attr) :=
  let middle_index := (length color_pairs / 2)%nat in
  let head := firstn middle_index color_pairs in
  let tail := skipn (1 + middle_index) color_pairs in
  rows <- range 0 column_height 1 ;;
  middle <- mapM (fun _ => getitem color_pairs middle_index) rows ;;
  ret (head ++ middle ++ tail).

Definition generate_green_palette (self : t) : M t :=
  greens <- greens (COLORS (screen self)) ;;
  mapM (fun '(i, (r, g, b)) =>
          emit (InitColor i r g b) ;; emit (InitPair i i COLOR_BLACK))
       (enumerate 1 greens) ;;
  color_ids <- range 1 (Z.of_nat (length greens) + 1) 1 ;;
  let color_pairs := map color_pair color_ids in
  let column_height := fst (getmaxyx (screen self)) in
  stretched <- stretch color_pairs column_height ;;
  ret (mk (screen self) (time_step_sec self) (min_falling_speed self)
          (columns self) (Some stretched) (column_spacing self)).

Definition _random_falling_speed (self : t) : M Q :=
  uniform (min_falling_speed self) (min_falling_speed self * 10)%Q.

Definition _generate_column (self : t) (x : Z) : M Column.t :=
  falling_speed <- _random_falling_speed self ;;
  match color_pairs self with
  | None => raise TypeError
  | Some colors =>
      Column.__init__ (0, x) colors falling_speed (column_spacing self)
  end.

Definition generate_all_columns (self : t) : M t :=
  let max_x := snd (getmaxyx (screen self)) - column_spacing self in
  xs <- range 0 max_x (column_spacing self) ;;
  cols <- mapM (_generate_column self) xs ;;
  ret (mk (screen self) (time_step_sec self) (min_falling_speed self)
          (Some cols) (color_pairs self) (column_spacing self)).

(** The body of the [for column in self.columns] loop of [step]. *)
Definition step_column (self : t) (column : Column.t) : M Column.t :=
  '(still_visible, column) <- Column.step column (screen self) ;;
  if negb still_visible then
    speed <- _random_falling_speed self ;;
    Column.reset column speed
  else ret column.

Definition step (self : t) : M t :=
  match columns self with
  | None => raise TypeError
  | Some cols =>
      cols <- mapM (step_column self) cols ;;
      emit Refresh ;;
      emit (Sleep (time_step_sec self)) ;;
      ret (mk (screen self) (time_step_sec self) (min_falling_speed self)
              (Some cols) (color_pairs self) (column_spacing self))
  end.

End Rain.

(** ** Startup *)

Definition terminal_ok (screen : Screen) : M bool :=
  ok <- (if (COLORS screen <? 2) || negb (has_colors screen) then
           emit (PrintStderr
                   (lit "ncurses has too few colors in this terminal")) ;;
           ret false
         else ret true) ;;
  ok <- (if negb (can_change_color screen) then
           emit (PrintStderr
                   (lit "ncurses cannot change colors in this terminal")) ;;
           ret false
         else ret ok) ;;
  ret ok.

(** The [while screen.getch() == -1: r.step()] loop of [main], for a user
    who presses a key after [polls] polls that found none. *)
Fixpoint animate (polls : nat) (r : Rain.t) : M Rain.t :=
  match polls with
  | O => ret r
  | S polls' => r' <- Rain.step r ;; animate polls' r'
  end.

Definition main (polls : nat) (screen : Screen)
           (time_step_sec min_falling_speed : Q) : M unit :=
  emit (CursSet 0) ;;
  emit (Nodelay 1) ;;
  emit StartColor ;;
  ok <- terminal_ok screen ;;
  (if negb ok then raise (SystemExit 1) else ret tt) ;;
  let r := Rain.__init__ screen time_step_sec min_falling_speed in
  r <- Rain.generate_green_palette r ;;
  r <- Rain.generate_all_columns r ;;
  animate polls r ;;
  emit Clear ;;
  emit Refresh.

(** ** Specification vocabulary *)

(** [wp m Q w]: run from [w], [m] returns normally and [Q] holds of the
    value and the world it leaves. *)
Definition wp {A} (m : M A) (Q : A -> World -> Prop) (w : World) : Prop :=
  exists a w', m w = (Ok a, w') /\ Q a w'.

(** The world [w'] differs from [w] by draws from the tape only. *)
Definition drew (w w' : World) : Prop :=
  tape w' = tape w /\ out w' = out w.

(** The world [w'] extends the trace of [w] by calls that satisfy [P]. *)
Definition emitted (P : event -> Prop) (w w' : World) : Prop :=
  tape w' = tape w /\ exists evs, out w' = out w ++ evs /\ Forall P evs.

(** Display cells a code point occupies: the Katakana, Hiragana and Kangxi
    blocks the program draws from are East Asian wide characters, ASCII
    characters are narrow. *)
Definition in_range (lo hi c : Z) : bool := (lo <=? c) && (c <? hi).

Definition wide (c : Z) : bool :=
  in_range 12448 12543 c || in_range 12353 12439 c || in_range 12032 12245 c.

Definition cell_width (c : Z) : Z := if wide c then 2 else 1.

Definition display_width (s : str) : Z :=
  fold_right (fun c n => cell_width c + n) 0 s.

(** A screen write that stays inside the screen. *)
Definition in_bounds (screen : Screen) (e : event) : Prop :=
  match e with
  | Addstr y x s _ =>
      0 <= y < LINES screen /\ 0 <= x /\ x + display_width s <= COLS screen
  | _ => True
  end.

(** One iteration of [step] on a character: its row advances. *)
Definition advance (speed : Q) (char : Character.t) : Character.t :=
  Character.set_y char (Character.y char + speed)%Q.

(** The character is on a row of the screen. *)
Definition visible (max_y : Z) (char : Character.t) : bool :=
  is_on_screen max_y (int (Character.y char)).

(** The locals [y], [x] of [step] after its first loop. *)
Fixpoint last_seen (chars : list Character.t) (yx : Z * Z) : Z * Z :=
  match chars with
  | [] => yx
  | char :: rest =>
      last_seen rest (int (Character.y char), Character.x char)
  end.

(** The write that draws a visible character of [chars]. *)
Definition draws (max_y : Z) (chars : list Character.t) (e : event) : Prop :=
  exists char,
    In char chars /\ visible max_y char = true
    /\ e = Addstr (int (Character.y char)) (Character.x char)
                  (Character.symbol char) (Some (Character.color char)).

(** The write that blanks [width] cells at column [x] of an on-screen row,
    from row [y] upward. *)
Definition erases (max_y y x width : Z) (e : event) : Prop :=
  exists row,
    0 <= row < max_y /\ row <= y /\ e = Addstr row x (spaces width) None.

(** A write of [step]: it draws a visible character of the column or
    blanks the column's width on a screen row, at a character's [x]. *)
Definition steps (max_y : Z) (self : Column.t) (e : event) : Prop :=
  draws max_y (Column.characters self) e
  \/ exists char y,
      In char (Column.characters self)
      /\ erases max_y y (Character.x char) (Column.width self) e.

(** Rows of [n] characters staggered upward from row [k]. *)
Definition staggered (k : Z) (n : nat) : list Q :=
  map (fun i => inject_Z (k - Z.of_nat i)) (seq 0 n).

(** Whether one of [n] characters staggered upward from row [k] is on a
    screen of [max_y] rows. *)
Definition some_visible (max_y k : Z) (n : nat) : bool :=
  existsb (fun i => is_on_screen max_y (k - Z.of_nat i)) (seq 0 n).

(** A column whose glyphs, two cells wide like the column itself, fit on
    the screen at the column's position. *)
Definition fits (screen : Screen) (col : Column.t) : Prop :=
  Column.width col = 2
  /\ Forall (fun x => 0 <= x /\ x + 2 <= COLS screen)
            (map Character.x (Column.characters col))
  /\ Forall (fun s => display_width s = 2)
            (map Character.symbol (Column.characters col)).

(** A column as [_generate_column] builds it at slot [x]. *)
Definition built_at (self : Rain.t) (palette : list attr) (x : Z)
           (col : Column.t) : Prop :=
  Column.width col = Rain.column_spacing self
  /\ map Character.color (Column.characters col) = palette
  /\ map Character.x (Column.characters col) = map (fun _ => x) palette
  /\ Forall (fun s => display_width s = 2)
            (map Character.symbol (Column.characters col)).

(** A container whose columns all fit on its screen. *)
Definition all_fit (self : Rain.t) : Prop :=
  exists cols,
    Rain.columns self = Some cols
    /\ Forall (fits (Rain.screen self)) cols.

(** A call that redefines a color or binds a color pair. *)
Definition sets_color (e : event) : Prop :=
  match e with
  | InitColor _ _ _ _ | InitPair _ _ _ => True
  | _ => False
  end.

(** The green component of an RGB triple. *)
Definition green (c : Z * Z * Z) : Z := snd (fst c).

(** A call on a column, and a sequence of calls. *)
Inductive call : Type :=
| Step (screen : Screen)
| Reset (new_min_falling_speed : Q).

Definition do_call (col : Column.t) (c : call) : M Column.t :=
  match c with
  | Step screen => '(_, col') <- Column.step col screen ;; ret col'
  | Reset speed => Column.reset col speed
  end.

Fixpoint do_calls (col : Column.t) (cs : list call) : M Column.t :=
  match cs with
  | [] => ret col
  | c :: cs' => col' <- do_call col c ;; do_calls col' cs'
  end.

(** What [n] successive calls of [step] return. *)
Fixpoint step_returns (n : nat) (col : Column.t) (screen : Screen)
  : M (list bool) :=
  match n with
  | O => ret []
  | S n' =>
      '(b, col') <- Column.step col screen ;;
      bs <- step_returns n' col' screen ;;
      ret (b :: bs)
  end.

(** The writes of the first loop of [step]: each visible character at its
    truncated row, in the order of the column. *)
Definition draw_events (max_y : Z) (chars : list Character.t) : list event :=
  map (fun char =>
         Addstr (int (Character.y char)) (Character.x char)
                (Character.symbol char) (Some (Character.color char)))
      (filter (visible max_y) chars).

(** The writes of the second loop of [step] entered at row [y]: blanks on
    the rows [y], [y - 1], ..., [0] when [y] is on screen, none otherwise. *)
Definition erase_events (max_y y x width : Z) : list event :=
  if is_on_screen max_y y then
    map (fun i => Addstr (y - Z.of_nat i) x (spaces width) None)
        (seq 0 (Z.to_nat (y + 1)))
  else [].

(** The calls that register the gradient [gs] with curses, numbering the
    colors from [start]. *)
Definition register_events (start : Z) (gs : list (Z * Z * Z)) : list event :=
  flat_map (fun '(i, (r, g, b)) =>
              [InitColor i r g b; InitPair i i COLOR_BLACK])
           (enumerate start gs).

(** A registration curses accepts on a terminal with [colors] colors that
    leaves color 0, the black background, alone: a color between 1 and
    [colors - 1] redefined to a pure green of intensity at most 1000, or the
    pair of the same number bound to that color on black. *)
Definition valid_setup (colors : Z) (e : event) : Prop :=
  match e with
  | InitColor i r g b => 1 <= i < colors /\ r = 0 /\ 0 < g <= 1000 /\ b = 0
  | InitPair p fg bg => 1 <= p < colors /\ fg = p /\ bg = COLOR_BLACK
  | _ => False
  end.

(** The color number at depth [j] of a palette stretched from [levels]
    colors over [height] rows. *)
Definition depth_color (levels height j : nat) : Z :=
  if (j <? levels / 2)%nat then Z.of_nat j + 1
  else if (j <? levels / 2 + height)%nat then Z.of_nat (levels / 2) + 1
  else Z.of_nat (j - height) + 2.

(** Everything one call of [step] writes for a column, in order. *)
Definition step_events (max_y : Z) (self : Column.t) : list event :=
  draw_events max_y (Column.characters self)
  ++ erase_events max_y
       (fst (last_seen (Column.characters self) (-1, -1)) - 1)
       (snd (last_seen (Column.characters self) (-1, -1)))
       (Column.width self).

(** A speed [_random_falling_speed] can return: the minimum speed plus a
    fraction in [[0, 1)] of the way to ten times the minimum. *)
Definition drawn_speed (self : Rain.t) (speed : Q) : Prop :=
  exists u : Q,
    (0 <= u)%Q /\ (u < 1)%Q
    /\ speed = (Rain.min_falling_speed self
                + (Rain.min_falling_speed self * 10
                   - Rain.min_falling_speed self) * u)%Q.

(** Two states of a column at the same place: same width, and character
    by character the same [x] and the same color. *)
Definition same_place (col col' : Column.t) : Prop :=
  Column.width col' = Column.width col
  /\ map Character.x (Column.characters col')
     = map Character.x (Column.characters col)
  /\ map Character.color (Column.characters col')
     = map Character.color (Column.characters col).

(** What one tick of the container makes of a column: it stays in place
    and glyphs two cells wide stay so; if it was on screen it has advanced
    by its speed, and if not it has a freshly drawn speed and its rows are
    staged from row 0 upward. *)
Definition ticked (self : Rain.t) (col col' : Column.t) : Prop :=
  same_place col col'
  /\ (Forall (fun s => display_width s = 2)
             (map Character.symbol (Column.characters col)) ->
      Forall (fun s => display_width s = 2)
             (map Character.symbol (Column.characters col')))
  /\ if existsb (visible (LINES (Rain.screen self))) (Column.characters col)
     then col' = Column.mk (Column.min_falling_speed col)
                           (map (advance (Column.min_falling_speed col))
                                (Column.characters col))
                           (Column.width col)
     else drawn_speed self (Column.min_falling_speed col')
          /\ map Character.y (Column.characters col')
             = staggered 0 (length (Column.characters col)).

(** A column whose speed lies between [min_speed] and ten times it. *)
Definition speed_within (min_speed : Q) (col : Column.t) : Prop :=
  (min_speed <= Column.min_falling_speed col)%Q
  /\ (Column.min_falling_speed col <= min_speed * 10)%Q.

(** A screen write that stays on the screen and clear of the last cell of
    its row. *)
Definition clear_of_edge (screen : Screen) (e : event) : Prop :=
  match e with
  | Addstr y x s _ =>
      0 <= y < LINES screen /\ 0 <= x /\ x + display_width s < COLS screen
  | _ => True
  end.

(** A column whose glyphs, two cells wide like the column itself, end
    before the last cell of the row. *)
Definition inside (screen : Screen) (col : Column.t) : Prop :=
  Column.width col = 2
  /\ Forall (fun x => 0 <= x /\ x + 2 < COLS screen)
            (map Character.x (Column.characters col))
  /\ Forall (fun s => display_width s = 2)
            (map Character.symbol (Column.characters col)).

(** Arguments of [main] the program runs with: a tick length [time.sleep]
    accepts, not negative and within the C timestamp it is converted to,
    and a minimum speed whose tenfold is still a finite binary64 number.
    On other arguments the program raises ([ValueError] or [OverflowError]
    from [time.sleep], [OverflowError] from [int] of an infinite row),
    which the [Sleep] event and the exact rationals of the embedding do
    not show. The float arguments [nan] and [inf], on which the program
    raises as well, are no rationals and so are left out by the type. *)
Definition accepted_arguments (time_step_sec min_falling_speed : Q) : Prop :=
  (0 <= time_step_sec)%Q
  /\ (time_step_sec <= 1000000000)%Q
  /\ (- inject_Z (10 ^ 307) <= min_falling_speed)%Q
  /\ (min_falling_speed <= inject_Z (10 ^ 307))%Q.

(** A world whose generator draws zero every time, with nothing output. *)
Definition quiet : World := mkWorld (fun _ => 0%N) 0 [].

(** * Properties *)

(** ** The monad *)

Lemma wp_ret {A} (a : A) (Q : A -> World -> Prop) w : Q a w -> wp (ret a) Q w.
Proof. intros q. exists a, w. split; [reflexivity | exact q]. Qed.

Lemma wp_bind {A B} (m : M A) (k : A -> M B) (Q : B -> World -> Prop) w :
  wp m (fun a w' => wp (k a) Q w') w -> wp (bind m k) Q w.
Proof.
  intros (a & w1 & run & b & w2 & run' & q).
  exists b, w2. unfold bind. rewrite run. split; assumption.
Qed.

Lemma bind_ok {A B} (m : M A) (k : A -> M B) w a w' :
  m w = (Ok a, w') -> bind m k w = k a w'.
Proof. intros run. unfold bind. rewrite run. reflexivity. Qed.

Lemma wp_mono {A} (m : M A) (P Q : A -> World -> Prop) w :
  wp m P w -> (forall a w', P a w' -> Q a w') -> wp m Q w.
Proof.
  intros (a & w' & run & p) imp. exists a, w'. split; [assumption | auto].
Qed.

Lemma wp_emit (e : event) (Q : unit -> World -> Prop) w :
  Q tt (mkWorld (tape w) (pos w) (out w ++ [e])) -> wp (emit e) Q w.
Proof. intros q. eexists _, _. split; [reflexivity | exact q]. Qed.

Lemma wp_draw (Q : N -> World -> Prop) w :
  Q (tape w (pos w)) (mkWorld (tape w) (S (pos w)) (out w)) -> wp draw Q w.
Proof. intros q. eexists _, _. split; [reflexivity | exact q]. Qed.

Lemma drew_refl w : drew w w.
Proof. split; reflexivity. Qed.

Lemma drew_trans w1 w2 w3 : drew w1 w2 -> drew w2 w3 -> drew w1 w3.
Proof. intros [t1 o1] [t2 o2]. split; congruence. Qed.

Lemma emitted_refl P w : emitted P w w.
Proof. split; [reflexivity |]. exists []. rewrite app_nil_r. auto. Qed.

Lemma emitted_trans P w1 w2 w3 :
  emitted P w1 w2 -> emitted P w2 w3 -> emitted P w1 w3.
Proof.
  intros [t1 (e1 & o1 & f1)] [t2 (e2 & o2 & f2)]. split; [congruence |].
  exists (e1 ++ e2). rewrite o2, o1, app_assoc. split; [reflexivity |].
  apply Forall_app; auto.
Qed.

Lemma drew_emitted P w w' : drew w w' -> emitted P w w'.
Proof.
  intros [t o]. split; [assumption |]. exists []. rewrite app_nil_r. auto.
Qed.

(** A loop over a list keeps an invariant of the world that each iteration
    keeps, and relates each element to what the body made of it. *)
Lemma wp_mapM {A B} (f : A -> M B) (P : A -> B -> Prop) (I : World -> Prop)
      (l : list A) :
  (forall a w, In a l -> I w -> wp (f a) (fun b w' => P a b /\ I w') w) ->
  forall w, I w -> wp (mapM f l) (fun bs w' => Forall2 P l bs /\ I w') w.
Proof.
  induction l as [| a l IH]; intros body w inv; simpl.
  - apply wp_ret. auto.
  - apply wp_bind.
    eapply wp_mono; [apply body; [left; reflexivity | exact inv] |].
    intros b w1 [pb inv1]. apply wp_bind.
    eapply wp_mono.
    + apply IH; [| exact inv1]. intros a' w' ina. apply body. right. exact ina.
    + intros bs w2 [pbs inv2]. apply wp_ret. auto.
Qed.

(** ** Ranges *)

Lemma range_items_length start stop step :
  length (range_items start stop step)
  = Z.to_nat (range_len start stop step).
Proof. unfold range_items. rewrite length_map, length_seq. reflexivity. Qed.

Lemma range_len_unit start stop :
  range_len start stop 1 = Z.max 0 (stop - start).
Proof.
  unfold range_len. simpl. destruct (Z.ltb_spec start stop).
  - rewrite Z.div_1_r. lia.
  - lia.
Qed.

Lemma range_len_up start stop step :
  0 < step -> start < stop ->
  range_len start stop step = (stop - start - 1) / step + 1.
Proof.
  intros hs hlt. unfold range_len.
  destruct (Z.ltb_spec 0 step); [| lia].
  destruct (Z.ltb_spec start stop); [reflexivity | lia].
Qed.

Lemma range_len_up_empty start stop step :
  0 < step -> stop <= start -> range_len start stop step = 0.
Proof.
  intros hs hle. unfold range_len.
  destruct (Z.ltb_spec 0 step); [| lia].
  destruct (Z.ltb_spec start stop); [lia | reflexivity].
Qed.

(** Membership in an ascending range. *)
Lemma In_range_items start stop step x :
  0 < step ->
  In x (range_items start stop step)
  <-> start <= x < stop /\ (x - start) mod step = 0.
Proof.
  intros hs. unfold range_items. rewrite in_map_iff. split.
  - intros (i & <- & hi). apply in_seq in hi.
    destruct (Z_lt_le_dec start stop) as [hlt | hge].
    + rewrite range_len_up in hi by assumption.
      assert (bound : Z.of_nat i <= (stop - start - 1) / step) by lia.
      pose proof (Z.mul_div_le (stop - start - 1) step hs) as le.
      assert (Z.of_nat i * step <= stop - start - 1) by nia.
      split; [nia |].
      replace (start + Z.of_nat i * step - start) with (Z.of_nat i * step)
        by lia.
      apply Z_mod_mult.
    + rewrite range_len_up_empty in hi by assumption. simpl in hi. lia.
  - intros [[lo hi] div].
    exists (Z.to_nat ((x - start) / step)).
    assert (exact : x - start = step * ((x - start) / step)).
    { apply Z_div_exact_full_2; [lia | assumption]. }
    assert (nonneg : 0 <= (x - start) / step).
    { apply Z.div_pos; lia. }
    split; [rewrite Z2Nat.id by assumption; lia |].
    apply in_seq. rewrite range_len_up by lia.
    assert ((x - start) / step <= (stop - start - 1) / step).
    { apply Z.div_le_mono; lia. }
    lia.
Qed.

(** An ascending range is strictly increasing. *)
Lemma range_items_increasing start stop step :
  0 < step -> StronglySorted Z.lt (range_items start stop step).
Proof.
  intros hs. unfold range_items.
  generalize (Z.to_nat (range_len start stop step)) as n.
  generalize 0%nat as k. intros k n. revert k.
  induction n as [| n IH]; intros k; simpl; constructor.
  - apply IH.
  - apply Forall_forall. intros x hx. apply in_map_iff in hx.
    destruct hx as (i & <- & hi). apply in_seq in hi. nia.
Qed.

(** ** The random source *)

Lemma wp_random w :
  wp random (fun u w' => (0 <= u)%Q /\ (u < 1)%Q /\ drew w w') w.
Proof.
  unfold random. apply wp_bind, wp_draw, wp_ret.
  assert (lt : (tape w (pos w) mod 9007199254740992 < 9007199254740992)%N).
  { apply N.mod_lt. discriminate. }
  revert lt. generalize (tape w (pos w) mod 9007199254740992)%N as m.
  intros m lt. repeat split.
  - unfold Qle. cbn [Qnum Qden]. lia.
  - unfold Qlt. cbn [Qnum Qden]. lia.
Qed.

Lemma wp_choice {A} (seq : list A) w :
  seq <> [] -> wp (choice seq) (fun a w' => In a seq /\ drew w w') w.
Proof.
  intros ne. destruct seq as [| d seq]; [contradiction |].
  unfold choice, randbelow. apply wp_bind, wp_bind, wp_draw, wp_ret, wp_ret.
  split; [| split; reflexivity].
  apply nth_In.
  assert ((tape w (pos w) mod N.of_nat (length (d :: seq))
           < N.of_nat (length (d :: seq)))%N).
  { apply N.mod_lt. simpl. lia. }
  lia.
Qed.

Lemma wp_uniform a b w : wp (uniform a b) (fun _ w' => drew w w') w.
Proof.
  unfold uniform. apply wp_bind.
  eapply wp_mono; [apply wp_random |].
  intros u w' (_ & _ & d). apply wp_ret, d.
Qed.

Lemma LATIN_nonempty : LATIN <> [].
Proof. discriminate. Qed.

Lemma NON_LATIN_nonempty : NON_LATIN <> [].
Proof. discriminate. Qed.

(** Every token either branch of the glyph source can return is two
    display cells wide. *)
Lemma LATIN_narrow : Forall (fun s => display_width s = 1) LATIN.
Proof.
  apply Forall_forall. intros s hs.
  assert (chk : forallb (fun s => display_width s =? 1) LATIN = true)
    by (vm_compute; reflexivity).
  rewrite forallb_forall in chk. apply Z.eqb_eq, chk, hs.
Qed.

Lemma NON_LATIN_wide : Forall (fun s => display_width s = 2) NON_LATIN.
Proof.
  apply Forall_forall. intros s hs.
  assert (chk : forallb (fun s => display_width s =? 2) NON_LATIN = true)
    by (vm_compute; reflexivity).
  rewrite forallb_forall in chk. apply Z.eqb_eq, chk, hs.
Qed.

Lemma display_width_app s t :
  display_width (s ++ t) = display_width s + display_width t.
Proof.
  induction s as [| c s IH]; simpl; [reflexivity |].
  unfold display_width in *. simpl. rewrite IH. lia.
Qed.

Lemma wp_random_character chance w :
  wp (random_character chance)
     (fun s w' => display_width s = 2 /\ drew w w') w.
Proof.
  unfold random_character. apply wp_bind.
  eapply wp_mono; [apply wp_random |].
  intros u w1 (_ & _ & d1).
  destruct (Qlt_le_dec u chance).
  - apply wp_bind. eapply wp_mono; [apply wp_choice, LATIN_nonempty |].
    intros a w2 [ina d2]. apply wp_bind.
    eapply wp_mono; [apply wp_choice, LATIN_nonempty |].
    intros b w3 [inb d3]. apply wp_ret. split.
    + pose proof LATIN_narrow as nar. rewrite Forall_forall in nar.
      rewrite display_width_app, (nar a ina), (nar b inb). reflexivity.
    + eauto using drew_trans.
  - eapply wp_mono; [apply wp_choice, NON_LATIN_nonempty |].
    intros s w2 [ins d2]. split.
    + pose proof NON_LATIN_wide as wd. rewrite Forall_forall in wd. auto.
    + eauto using drew_trans.
Qed.

(** C8. Called with latin chance 1.0 the glyph source returns, whatever the
    random draws, a token of exactly two characters, each a Latin letter,
    digit or punctuation mark; called with latin chance 0.0 it returns a
    single character of the Katakana, Hiragana and Kangxi set. *)
Theorem random_character_certain (w : World) :
  (exists a b w',
      random_character 1 w = (Ok [a; b], w')
      /\ In a (ascii_letters ++ digits ++ punctuation)
      /\ In b (ascii_letters ++ digits ++ punctuation))
  /\ (exists c w',
         random_character 0 w = (Ok [c], w')
         /\ In c (KATAKANA ++ HIRAGANA ++ KANGXI)).
Proof.
  split.
  - destruct (wp_random w) as (u & w1 & run & lo & hi & _).
    destruct (wp_choice LATIN w1 LATIN_nonempty) as (a & w2 & runa & ina & _).
    destruct (wp_choice LATIN w2 LATIN_nonempty) as (b & w3 & runb & inb & _).
    apply in_map_iff in ina. destruct ina as (ca & <- & ina).
    apply in_map_iff in inb. destruct inb as (cb & <- & inb).
    exists ca, cb, w3. split; [| split; assumption].
    unfold random_character, bind at 1. rewrite run.
    destruct (Qlt_le_dec u 1) as [_ | ge].
    + unfold bind. rewrite runa, runb. reflexivity.
    + exfalso. apply (Qlt_not_le _ _ hi ge).
  - destruct (wp_random w) as (u & w1 & run & lo & hi & _).
    destruct (wp_choice NON_LATIN w1 NON_LATIN_nonempty)
      as (s & w2 & runs & ins & _).
    apply in_map_iff in ins. destruct ins as (c & <- & inc).
    exists c, w2. split; [| assumption].
    unfold random_character, bind at 1. rewrite run.
    destruct (Qlt_le_dec u 0) as [lt | _].
    + exfalso. apply (Qlt_not_le _ _ lt lo).
    + exact runs.
Qed.

(** ** The palette *)

Ltac gradient_levels :=
  repeat constructor; unfold green; cbn; lia.

Ltac gradient_case :=
  eexists; split; [vm_compute; reflexivity |];
  split; [simpl; lia |];
  split; [gradient_levels |];
  split; [gradient_levels |];
  split; [reflexivity |];
  split; [gradient_levels |];
  split; [cbn; lia |];
  split; [intros; first [lia | eexists; reflexivity] |];
  intros; first [reflexivity | lia].

(** C5. For every color count the terminal check accepts, the raw green
    gradient has at most 8 levels, strictly decreasing in brightness from
    the maximum 1000, each a pure green, none of them black. The levels
    are [1000], [1000 - dg], [1000 - 2 dg], ... for the step
    [dg = int(1000 / min(8, COLORS - 1))], as far down as they stay above
    [dg]: from 3 colors on the first level is the maximum 1000, and with
    exactly 2 colors there is no level at all. *)
Theorem greens_gradient (COLORS : Z) (w : World) :
  2 <= COLORS ->
  let dg := Z.quot 1000 (Z.min 8 (COLORS - 1)) in
  exists gs,
    Rain.greens COLORS w = (Ok gs, w)
    /\ (length gs <= 8)%nat
    /\ StronglySorted (fun c d => green c > green d) gs
    /\ Forall (fun c => c = (0, green c, 0) /\ 0 < green c <= 1000) gs
    /\ gs = map (fun i => (0, 1000 - Z.of_nat i * dg, 0)) (seq 0 (length gs))
    /\ Forall (fun c => dg < green c) gs
    /\ 1000 - Z.of_nat (length gs) * dg <= dg
    /\ (3 <= COLORS -> exists rest, gs = (0, 1000, 0) :: rest)
    /\ (COLORS = 2 -> gs = []).
Proof.
  intros supported dg.
  assert (cases : COLORS = 2 \/ COLORS = 3 \/ COLORS = 4 \/ COLORS = 5
                  \/ COLORS = 6 \/ COLORS = 7 \/ COLORS = 8 \/ 9 <= COLORS)
    by lia.
  destruct cases as [-> | [-> | [-> | [-> | [-> | [-> | [-> | many]]]]]]];
    subst dg; try gradient_case.
  unfold Rain.greens. rewrite Z.min_l by lia. gradient_case.
Qed.

Lemma greens_gradient_witness :
  let dg := Z.quot 1000 (Z.min 8 (256 - 1)) in
  2 <= 256
  /\ exists gs,
      Rain.greens 256 quiet = (Ok gs, quiet)
      /\ (length gs <= 8)%nat
      /\ StronglySorted (fun c d => green c > green d) gs
      /\ Forall (fun c => c = (0, green c, 0) /\ 0 < green c <= 1000) gs
      /\ gs = map (fun i => (0, 1000 - Z.of_nat i * dg, 0))
                  (seq 0 (length gs))
      /\ Forall (fun c => dg < green c) gs
      /\ 1000 - Z.of_nat (length gs) * dg <= dg
      /\ (3 <= 256 -> exists rest, gs = (0, 1000, 0) :: rest)
      /\ (256 = 2 -> gs = []).
Proof.
  intros dg. split; [lia | apply (greens_gradient 256 quiet); lia].
Defined.

Lemma wp_getitem_repeat {A B} (seq : list A) (i : nat) (a : A) (l : list B) w :
  nth_error seq i = Some a ->
  mapM (fun _ => getitem seq i) l w = (Ok (repeat a (length l)), w).
Proof.
  intros found. induction l as [| b l IH]; simpl; [reflexivity |].
  unfold bind, getitem at 1. rewrite found. unfold ret at 1.
  rewrite IH. reflexivity.
Qed.

(** Stretching a non-empty list of colors: the part before the midpoint,
    the midpoint repeated once per screen row, the part after it. *)
Lemma stretch_nonempty (color_pairs : list attr) (column_height : Z) w :
  color_pairs <> [] ->
  exists mid,
    nth_error color_pairs (length color_pairs / 2) = Some mid
    /\ Rain.stretch color_pairs column_height w
       = (Ok (firstn (length color_pairs / 2) color_pairs
              ++ repeat mid (Z.to_nat column_height)
              ++ skipn (1 + length color_pairs / 2) color_pairs), w).
Proof.
  intros ne.
  assert (pos_len : (0 < length color_pairs)%nat).
  { destruct color_pairs; [contradiction | simpl; lia]. }
  assert (lt : (length color_pairs / 2 < length color_pairs)%nat).
  { apply Nat.div_lt; lia. }
  destruct (nth_error color_pairs (length color_pairs / 2)) as [mid |] eqn:found.
  2: { apply nth_error_None in found. lia. }
  exists mid. split; [reflexivity |].
  unfold Rain.stretch, bind, range. simpl (1 =? 0). cbv iota. unfold ret at 1.
  rewrite (wp_getitem_repeat _ _ mid _ _ found).
  rewrite range_items_length, range_len_unit.
  replace (Z.to_nat (Z.max 0 (column_height - 0)))
    with (Z.to_nat column_height) by lia.
  reflexivity.
Qed.

Lemma stretch_length (color_pairs : list attr) (mid : attr) (h : nat) :
  color_pairs <> [] ->
  length (firstn (length color_pairs / 2) color_pairs
          ++ repeat mid h
          ++ skipn (1 + length color_pairs / 2) color_pairs)
  = (length color_pairs - 1 + h)%nat.
Proof.
  intros ne.
  assert (pos_len : (0 < length color_pairs)%nat).
  { destruct color_pairs; [contradiction | simpl; lia]. }
  assert (lt : (length color_pairs / 2 < length color_pairs)%nat).
  { apply Nat.div_lt; lia. }
  rewrite !length_app, length_firstn, length_skipn, repeat_length. lia.
Qed.

Lemma stretch_middle (color_pairs : list attr) (mid : attr) (h i : nat) :
  (i < h)%nat ->
  nth_error (firstn (length color_pairs / 2) color_pairs
             ++ repeat mid h
             ++ skipn (1 + length color_pairs / 2) color_pairs)
            (length color_pairs / 2 + i)
  = Some mid.
Proof.
  intros lt.
  assert (le : (length color_pairs / 2 <= length color_pairs)%nat).
  { apply Nat.Div0.div_le_upper_bound. lia. }
  rewrite nth_error_app2; rewrite length_firstn; [| lia].
  replace (length color_pairs / 2 + i
           - Nat.min (length color_pairs / 2) (length color_pairs))%nat
    with i by lia.
  rewrite nth_error_app1 by (rewrite repeat_length; assumption).
  apply nth_error_repeat, lt.
Qed.

(** Registering the gradient with curses emits calls and nothing else. *)
Lemma wp_register_greens (gs : list (Z * Z * Z)) (start : Z) w :
  wp (mapM (fun '(i, (r, g, b)) =>
              emit (InitColor i r g b) ;; emit (InitPair i i COLOR_BLACK))
           (enumerate start gs))
     (fun _ w' => emitted sets_color w w') w.
Proof.
  eapply wp_mono.
  - apply (wp_mapM _ (fun _ _ => True) (emitted sets_color w)).
    + intros [i [[r g] b]] w1 _ inv. apply wp_bind, wp_emit, wp_emit.
      split; [exact I |]. eapply emitted_trans; [exact inv |].
      split; [reflexivity |]. simpl.
      exists [InitColor i r g b; InitPair i i COLOR_BLACK].
      rewrite <- app_assoc. split; [reflexivity |].
      repeat constructor.
    + apply emitted_refl.
  - intros _ w' [_ e]. exact e.
Qed.

(** What [generate_green_palette] stores, for a non-empty gradient. *)
Lemma generate_green_palette_spec (self : Rain.t) (w : World)
      (gs : list (Z * Z * Z)) :
  Rain.greens (COLORS (Rain.screen self)) w = (Ok gs, w) ->
  gs <> [] ->
  exists mid w',
    let color_pairs :=
      map color_pair (range_items 1 (Z.of_nat (length gs) + 1) 1) in
    nth_error color_pairs (length gs / 2) = Some mid
    /\ emitted sets_color w w'
    /\ Rain.generate_green_palette self w
       = (Ok (Rain.mk (Rain.screen self) (Rain.time_step_sec self)
                      (Rain.min_falling_speed self) (Rain.columns self)
                      (Some (firstn (length gs / 2) color_pairs
                             ++ repeat mid
                                  (Z.to_nat (LINES (Rain.screen self)))
                             ++ skipn (1 + length gs / 2) color_pairs))
                      (Rain.column_spacing self)), w').
Proof.
  intros rung ne.
  destruct (wp_register_greens gs 1 w) as (u & w' & runr & em).
  set (cps := map color_pair (range_items 1 (Z.of_nat (length gs) + 1) 1)).
  assert (len : length cps = length gs).
  { unfold cps. rewrite length_map, range_items_length, range_len_unit. lia. }
  assert (cne : cps <> []).
  { destruct gs; [contradiction |]. destruct cps; [discriminate len |].
    discriminate. }
  destruct (stretch_nonempty cps (LINES (Rain.screen self)) w' cne)
    as (mid & found & runs).
  rewrite len in found, runs.
  exists mid, w'. split; [exact found |]. split; [exact em |].
  unfold Rain.generate_green_palette, bind at 1. rewrite rung.
  unfold bind at 1. rewrite runr.
  unfold bind at 1, range. simpl (1 =? 0). cbv iota. unfold ret at 1.
  fold cps. unfold bind. simpl (fst _). rewrite runs. reflexivity.
Qed.

(** C2, as the code has it. A palette built from [L >= 1] raw brightness
    levels on a screen of [H] rows has length [L - 1 + H], which is
    [2 * (L / 2) + H] when [L] is odd, and the [H] entries from index
    [L / 2] on are all the midpoint color. *)
Theorem stretched_palette_shape (self : Rain.t) (w : World)
        (gs : list (Z * Z * Z)) :
  Rain.greens (COLORS (Rain.screen self)) w = (Ok gs, w) ->
  gs <> [] ->
  exists self' w' palette,
    Rain.generate_green_palette self w = (Ok self', w')
    /\ Rain.color_pairs self' = Some palette
    /\ length palette
       = (length gs - 1 + Z.to_nat (LINES (Rain.screen self)))%nat
    /\ (Nat.odd (length gs) = true ->
        length palette
        = (2 * (length gs / 2) + Z.to_nat (LINES (Rain.screen self)))%nat)
    /\ forall i, (i < Z.to_nat (LINES (Rain.screen self)))%nat ->
                 nth_error palette (length gs / 2 + i)
                 = Some (color_pair (Z.of_nat (length gs / 2) + 1)).
Proof.
  intros rung ne.
  destruct (generate_green_palette_spec self w gs rung ne)
    as (mid & w' & found & _ & run).
  set (cps := map color_pair (range_items 1 (Z.of_nat (length gs) + 1) 1))
    in *.
  assert (len : length cps = length gs).
  { unfold cps. rewrite length_map, range_items_length, range_len_unit. lia. }
  assert (cne : cps <> []).
  { destruct gs; [contradiction |]. destruct cps; [discriminate len |].
    discriminate. }
  assert (is_mid : mid = color_pair (Z.of_nat (length gs / 2) + 1)).
  { unfold cps, range_items in found.
    rewrite nth_error_map, nth_error_map in found.
    destruct (nth_error (seq 0 _) (length gs / 2)) as [k |] eqn:at_k;
      [| discriminate found].
    apply nth_error_In in at_k as in_k.
    pose proof (nth_error_nth _ _ 0%nat at_k) as nth_k.
    rewrite seq_nth in nth_k.
    - assert (mid = color_pair (1 + Z.of_nat k * 1)) as ->
        by (cbn [option_map] in found; congruence).
      f_equal. lia.
    - rewrite range_len_unit.
      assert (length gs / 2 < length gs)%nat; [| lia].
      apply Nat.div_lt; [| lia].
      destruct gs; [contradiction | simpl; lia]. }
  eexists _, w', _. split; [exact run |]. split; [reflexivity |].
  split; [| split].
  - rewrite <- len. apply stretch_length, cne.
  - intros odd. rewrite <- len at 1 2.
    rewrite stretch_length, len by exact cne.
    apply Nat.odd_spec in odd. destruct odd as [k ->].
    replace ((2 * k + 1) / 2)%nat with k; [lia |].
    apply Nat.div_unique with 1%nat; lia.
  - intros i lt. rewrite <- is_mid, <- len. apply stretch_middle, lt.
Qed.

Lemma stretched_palette_shape_witness :
  let self := Rain.__init__ (mkScreen 24 80 256 true true) (1 # 100) (1 # 20) in
  let gs := [(0, 1000, 0); (0, 875, 0); (0, 750, 0); (0, 625, 0);
             (0, 500, 0); (0, 375, 0); (0, 250, 0)] in
  Rain.greens 256 quiet = (Ok gs, quiet)
  /\ gs <> []
  /\ exists self' w' palette,
      Rain.generate_green_palette self quiet = (Ok self', w')
      /\ Rain.color_pairs self' = Some palette
      /\ length palette = (7 - 1 + 24)%nat
      /\ (Nat.odd 7 = true -> length palette = (2 * (7 / 2) + 24)%nat)
      /\ forall i, (i < 24)%nat ->
                   nth_error palette (7 / 2 + i)
                   = Some (color_pair (Z.of_nat (7 / 2) + 1)).
Proof.
  intros self gs.
  split; [reflexivity |]. split; [discriminate |].
  apply (stretched_palette_shape self quiet gs); [reflexivity | discriminate].
Defined.

(** C2 fails for an even number of raw levels: a terminal with 6 colors
    gives 4 levels, and on 24 rows the palette has 27 entries, not
    [2 * (4 / 2) + 24 = 28]. *)
Lemma stretched_palette_even_levels :
  exists gs self' w' palette,
    Rain.greens 6 quiet = (Ok gs, quiet)
    /\ length gs = 4%nat
    /\ Rain.generate_green_palette
         (Rain.__init__ (mkScreen 24 80 6 true true) (1 # 100) (1 # 20)) quiet
       = (Ok self', w')
    /\ Rain.color_pairs self' = Some palette
    /\ length palette = 27%nat
    /\ length palette <> (2 * (length gs / 2) + 24)%nat.
Proof.
  do 4 eexists.
  split; [vm_compute; reflexivity |].
  split; [reflexivity |].
  split; [vm_compute; reflexivity |].
  split; [reflexivity |].
  split; [reflexivity |].
  simpl. lia.
Qed.

(** ** Startup *)

(** C4, at the smallest terminal the check accepts. With exactly 2 colors
    the capability check passes, the gradient is empty, and palette
    construction raises [IndexError] before any column is built. *)
Theorem two_colors_pass_check_and_crash
        (polls : nat) (time_step_sec min_falling_speed : Q) (w : World) :
  let screen := mkScreen 24 80 2 true true in
  fst (terminal_ok screen w) = Ok true
  /\ fst (Rain.greens 2 w) = Ok []
  /\ fst (main polls screen time_step_sec min_falling_speed w)
     = Raise IndexError.
Proof.
  intros screen. split; [reflexivity |]. split; [reflexivity |].
  reflexivity.
Qed.

(** ** Columns *)

Lemma emitted_weaken (P Q : event -> Prop) w w' :
  (forall e, P e -> Q e) -> emitted P w w' -> emitted Q w w'.
Proof.
  intros imp [t (evs & o & f)]. split; [assumption |].
  exists evs. split; [assumption |]. eapply Forall_impl; eauto.
Qed.

Lemma emitted_one (P : event -> Prop) w e :
  P e -> emitted P w (mkWorld (tape w) (pos w) (out w ++ [e])).
Proof. intros p. split; [reflexivity |]. exists [e]. auto. Qed.

(** The first loop of [step] advances every character, draws the visible
    ones, and leaves in its locals whether one was visible and the
    coordinates of the last character. *)
Lemma step_for_spec max_y speed chars :
  forall l w,
  exists w',
    Column.step_for max_y speed chars l w
    = (Ok (map (advance speed) chars,
           (fst l || existsb (visible max_y) chars, last_seen chars (snd l))),
       w')
    /\ pos w' = pos w
    /\ emitted (draws max_y chars) w w'.
Proof.
  induction chars as [| char rest IH]; intros [vis yx] w.
  - exists w. simpl. rewrite orb_false_r.
    split; [reflexivity |]. split; [reflexivity | apply emitted_refl].
  - cbn [Column.step_for]. fold (visible max_y char).
    destruct (visible max_y char) eqn:on.
    + cbn [negb fst].
      destruct (IH (true, (int (Character.y char), Character.x char))
                   (mkWorld (tape w) (pos w)
                            (out w ++ [Addstr (int (Character.y char))
                                              (Character.x char)
                                              (Character.symbol char)
                                              (Some (Character.color char))])))
        as (w' & run & p & em).
      exists w'. split; [| split].
      * unfold bind, emit, ret at 1. rewrite run.
        cbn [existsb map last_seen fst snd]. rewrite on, orb_true_r.
        reflexivity.
      * exact p.
      * eapply emitted_trans.
        -- apply (emitted_one (draws max_y (char :: rest))).
           exists char. simpl. auto.
        -- eapply emitted_weaken; [| exact em].
           intros e (c & inc & vc & ->). exists c. simpl. auto.
    + cbn [negb fst].
      destruct (IH (vis, (int (Character.y char), Character.x char)) w)
        as (w' & run & p & em).
      exists w'. split; [| split].
      * unfold bind, ret at 1. rewrite run.
        cbn [existsb map last_seen fst snd]. rewrite on. reflexivity.
      * exact p.
      * eapply emitted_weaken; [| exact em].
        intros e (c & inc & vc & ->). exists c. simpl. auto.
Qed.

Lemma step_while_spec max_y y x width :
  forall w,
  exists w',
    Column.step_while max_y y x width w = (Ok tt, w')
    /\ pos w' = pos w
    /\ emitted (erases max_y y x width) w w'.
Proof.
  funelim (Column.step_while max_y y x width); intros w.
  - match goal with
    | IH : unit -> World -> forall w, exists w', _ |- _ =>
        destruct (IH tt w (mkWorld (tape w) (pos w)
                                   (out w ++ [Addstr y x (spaces width) None])))
          as (w' & run & p & em)
    end.
    exists w'. split; [| split].
    + unfold bind, emit. exact run.
    + exact p.
    + eapply emitted_trans.
      * apply (emitted_one (erases max_y y x width)). exists y.
        unfold is_on_screen in on_screen. repeat split; lia.
      * eapply emitted_weaken; [| exact em].
        intros e (row & range & below & ->). exists row.
        repeat split; lia.
  - exists w. split; [reflexivity |].
    split; [reflexivity | apply emitted_refl].
Qed.

Lemma last_seen_cases chars yx :
  (chars = [] /\ last_seen chars yx = yx)
  \/ exists char,
      In char chars
      /\ last_seen chars yx = (int (Character.y char), Character.x char).
Proof.
  revert yx. induction chars as [| char rest IH]; intros yx.
  - left. auto.
  - right. simpl.
    destruct (IH (int (Character.y char), Character.x char))
      as [[-> seen] | (c & inc & seen)].
    + exists char. auto.
    + exists c. auto.
Qed.

(** [step] returns whether a character was on screen when it was called,
    and leaves the column with every row advanced by the speed. *)
Lemma step_spec (self : Column.t) (screen : Screen) (w : World) :
  exists w',
    Column.step self screen w
    = (Ok (existsb (visible (LINES screen)) (Column.characters self),
           Column.mk (Column.min_falling_speed self)
                     (map (advance (Column.min_falling_speed self))
                          (Column.characters self))
                     (Column.width self)), w')
    /\ pos w' = pos w
    /\ emitted (steps (LINES screen) self) w w'.
Proof.
  destruct (step_for_spec (LINES screen) (Column.min_falling_speed self)
                          (Column.characters self) (false, (-1, -1)) w)
    as (w1 & run1 & p1 & em1).
  cbn [fst snd orb] in run1.
  destruct (last_seen (Column.characters self) (-1, -1)) as [y x] eqn:seen.
  destruct (step_while_spec (LINES screen) (y - 1) x (Column.width self) w1)
    as (w2 & run2 & p2 & em2).
  exists w2. split; [| split].
  - unfold Column.step, getmaxyx, bind. rewrite run1, run2. reflexivity.
  - congruence.
  - eapply emitted_trans.
    + eapply emitted_weaken; [| exact em1]. intros e d. left. exact d.
    + destruct (last_seen_cases (Column.characters self) (-1, -1))
        as [[empty same] | (c & inc & same)].
      * rewrite same in seen. injection seen as <- <-.
        destruct em2 as [t (evs & o & f)]. split; [exact t |].
        exists evs. split; [exact o |].
        eapply Forall_impl; [| exact f].
        intros e (row & range & below & ->). lia.
      * rewrite same in seen. injection seen as <- <-.
        eapply emitted_weaken; [| exact em2].
        intros e er. right. exists c, (int (Character.y c) - 1). auto.
Qed.

(** A loop that draws one glyph per element of [l] and builds something
    from the depth, the element and the glyph, as [__init__] and [reset]
    of a column do. *)
Lemma mapM_glyphs {A B} (g : Z -> A -> str -> B) (l : list A) :
  forall start w,
  exists glyphs bs w',
    mapM (fun _ => random_character default_latin_chance) l w
    = (Ok glyphs, w')
    /\ mapM (fun '(dy, a) =>
               symbol <- random_character default_latin_chance ;;
               ret (g dy a symbol))
            (enumerate start l) w
       = (Ok bs, w')
    /\ drew w w'
    /\ Forall2 (fun a b => exists dy s, b = g dy a s /\ display_width s = 2)
               l bs
    /\ forall i a,
        nth_error l i = Some a ->
        exists s,
          nth_error glyphs i = Some s
          /\ nth_error bs i = Some (g (start + Z.of_nat i) a s).
Proof.
  induction l as [| a l IH]; intros start w.
  - exists [], [], w. repeat split; try reflexivity; [constructor |].
    intros [| i] b; discriminate.
  - destruct (wp_random_character default_latin_chance w)
      as (s & w1 & run & wide2 & d1).
    destruct (IH (start + 1) w1) as (glyphs & bs & w2 & rung & runb & d2
                                     & all & nth).
    exists (s :: glyphs), (g start a s :: bs), w2. split; [| split].
    + cbn [mapM]. rewrite (bind_ok _ _ _ _ _ run), (bind_ok _ _ _ _ _ rung).
      reflexivity.
    + cbn [mapM enumerate].
      erewrite bind_ok by (rewrite (bind_ok _ _ _ _ _ run); reflexivity).
      rewrite (bind_ok _ _ _ _ _ runb). reflexivity.
    + split; [eauto using drew_trans |]. split.
      * constructor; [exists start, s; auto | exact all].
      * intros [| i] b found.
        -- injection found as <-. exists s.
           replace (start + Z.of_nat 0) with start by lia. auto.
        -- destruct (nth i b found) as (t & gt & bt). exists t.
           replace (start + Z.of_nat (S i)) with (start + 1 + Z.of_nat i)
             by lia.
           auto.
Qed.

Lemma Forall2_map_eq {A B C} (f : A -> C) (f' : B -> C) l l' :
  Forall2 (fun a b => f' b = f a) l l' -> map f' l' = map f l.
Proof.
  induction 1 as [| a b l l' same _ IH]; simpl; [reflexivity |].
  rewrite same, IH. reflexivity.
Qed.

(** What [Column.__init__] builds. *)
Lemma init_spec (head : Z * Z) (colors : list attr) (speed : Q) (width : Z)
      (w : World) :
  exists chars w',
    Column.__init__ head colors speed width w
    = (Ok (Column.mk speed chars width), w')
    /\ drew w w'
    /\ map Character.color chars = colors
    /\ map Character.x chars = map (fun _ => snd head) colors
    /\ Forall (fun c => display_width (Character.symbol c) = 2) chars
    /\ forall i color,
        nth_error colors i = Some color ->
        exists char,
          nth_error chars i = Some char
          /\ Character.y char = inject_Z (fst head - Z.of_nat i).
Proof.
  destruct (mapM_glyphs
              (fun dy color s =>
                 Character.mk (inject_Z (fst head - dy)) (snd head) s color)
              colors 0 w)
    as (glyphs & chars & w' & _ & run & d & all & nth).
  exists chars, w'. split; [| split; [exact d |]].
  - unfold Column.__init__, bind at 1.
    unfold Character.__init__. cbn [fst snd].
    change (mapM _ (enumerate 0 colors) w) with
      (mapM (fun '(dy, a) =>
               symbol <- random_character default_latin_chance ;;
               ret (Character.mk (inject_Z (fst head - dy)) (snd head)
                                 symbol a))
            (enumerate 0 colors) w).
    rewrite run. reflexivity.
  - split; [| split; [| split]].
    + transitivity (map (fun c : attr => c) colors); [| apply map_id].
      apply Forall2_map_eq.
      eapply Forall2_impl; [| exact all].
      intros a b (dy & s & -> & _). reflexivity.
    + apply Forall2_map_eq. eapply Forall2_impl; [| exact all].
      intros a b (dy & s & -> & _). reflexivity.
    + clear - all. induction all as [| a b l l' (dy & s & -> & wd) _ IH];
        constructor; auto.
    + intros i color found. destruct (nth i color found) as (s & _ & at_i).
      eexists. split; [exact at_i | reflexivity].
Qed.

(** What [Column.reset] leaves. *)
Lemma reset_spec (self : Column.t) (new_speed : Q) (w : World) :
  exists glyphs chars w',
    Column.reset self new_speed w
    = (Ok (Column.mk new_speed chars (Column.width self)), w')
    /\ mapM (fun _ => random_character default_latin_chance)
            (Column.characters self) w
       = (Ok glyphs, w')
    /\ drew w w'
    /\ map Character.color chars = map Character.color (Column.characters self)
    /\ map Character.x chars = map Character.x (Column.characters self)
    /\ Forall (fun c => display_width (Character.symbol c) = 2) chars
    /\ forall i char,
        nth_error (Column.characters self) i = Some char ->
        exists char' glyph,
          nth_error chars i = Some char'
          /\ nth_error glyphs i = Some glyph
          /\ Character.y char' = inject_Z (- Z.of_nat i)
          /\ Character.symbol char' = glyph
          /\ Character.color char' = Character.color char
          /\ Character.x char' = Character.x char.
Proof.
  destruct (mapM_glyphs
              (fun dy char s =>
                 Character.set_symbol
                   (Character.set_y char (inject_Z (- dy))) s)
              (Column.characters self) 0 w)
    as (glyphs & chars & w' & rung & run & d & all & nth).
  exists glyphs, chars, w'. split; [| split; [exact rung |]].
  - unfold Column.reset, bind at 1. rewrite run. reflexivity.
  - split; [exact d |]. split; [| split; [| split]].
    + apply Forall2_map_eq. eapply Forall2_impl; [| exact all].
      intros a b (dy & s & -> & _). reflexivity.
    + apply Forall2_map_eq. eapply Forall2_impl; [| exact all].
      intros a b (dy & s & -> & _). reflexivity.
    + clear - all. induction all as [| a b l l' (dy & s & -> & wd) _ IH];
        constructor; auto.
    + intros i char found. destruct (nth i char found) as (s & gs & at_i).
      eexists _, s. split; [exact at_i |]. split; [exact gs |].
      repeat split.
Qed.

(** C6. After [reset(new_speed)] the column's speed is [new_speed] and, for
    every character at depth [dy], its row is [-dy], its glyph is the
    [dy]-th of the glyphs freshly drawn from the random source during the
    call, and its color is unchanged. *)
Theorem reset_restages (self : Column.t) (new_speed : Q) (w : World) :
  exists self' glyphs w',
    Column.reset self new_speed w = (Ok self', w')
    /\ mapM (fun _ => random_character default_latin_chance)
            (Column.characters self) w
       = (Ok glyphs, w')
    /\ Column.min_falling_speed self' = new_speed
    /\ length (Column.characters self') = length (Column.characters self)
    /\ forall dy char,
        nth_error (Column.characters self) dy = Some char ->
        exists char' glyph,
          nth_error (Column.characters self') dy = Some char'
          /\ nth_error glyphs dy = Some glyph
          /\ Character.y char' = inject_Z (- Z.of_nat dy)
          /\ Character.symbol char' = glyph
          /\ Character.color char' = Character.color char.
Proof.
  destruct (reset_spec self new_speed w)
    as (glyphs & chars & w' & run & rung & _ & colors & _ & _ & nth).
  exists (Column.mk new_speed chars (Column.width self)), glyphs, w'.
  split; [exact run |]. split; [exact rung |]. split; [reflexivity |].
  split.
  - cbn [Column.characters].
    rewrite <- (length_map Character.color chars), colors.
    apply length_map.
  - intros dy char found.
    destruct (nth dy char found) as (char' & glyph & at_dy & g & y & s & c & _).
    exists char', glyph. auto.
Qed.

(** ** What calls on a column leave alone *)

Lemma advance_frame speed chars :
  map Character.x (map (advance speed) chars) = map Character.x chars
  /\ map Character.symbol (map (advance speed) chars)
     = map Character.symbol chars
  /\ map Character.color (map (advance speed) chars)
     = map Character.color chars.
Proof. repeat split; rewrite map_map; apply map_ext; reflexivity. Qed.

Lemma do_call_frame (col : Column.t) (c : call) (w : World) :
  exists col' w',
    do_call col c w = (Ok col', w')
    /\ map Character.color (Column.characters col')
       = map Character.color (Column.characters col)
    /\ map Character.x (Column.characters col')
       = map Character.x (Column.characters col)
    /\ Column.width col' = Column.width col.
Proof.
  destruct c as [screen | speed].
  - destruct (step_spec col screen w) as (w' & run & _ & _).
    eexists _, w'. split.
    + cbn [do_call]. rewrite (bind_ok _ _ _ _ _ run). reflexivity.
    + cbn [Column.characters Column.width].
      destruct (advance_frame (Column.min_falling_speed col)
                              (Column.characters col)) as (xs & _ & cs).
      auto.
  - destruct (reset_spec col speed w)
      as (glyphs & chars & w' & run & _ & _ & cs & xs & _).
    eexists _, w'. split; [exact run |]. auto.
Qed.

Lemma do_calls_frame (calls : list call) :
  forall (col : Column.t) (w : World),
  exists col' w',
    do_calls col calls w = (Ok col', w')
    /\ map Character.color (Column.characters col')
       = map Character.color (Column.characters col)
    /\ map Character.x (Column.characters col')
       = map Character.x (Column.characters col)
    /\ Column.width col' = Column.width col.
Proof.
  induction calls as [| c calls IH]; intros col w.
  - exists col, w. repeat split.
  - destruct (do_call_frame col c w) as (col1 & w1 & run1 & cs1 & xs1 & wd1).
    destruct (IH col1 w1) as (col2 & w2 & run2 & cs2 & xs2 & wd2).
    exists col2, w2. split.
    + cbn [do_calls]. rewrite (bind_ok _ _ _ _ _ run1). exact run2.
    + repeat split; congruence.
Qed.

(** C7. Whatever sequence of [step] and [reset] calls a column goes through,
    the colors of its characters stay what they were; for a column built
    from a palette they are the palette, entry by entry. *)
Theorem color_fixed_by_depth (head : Z * Z) (palette : list attr) (speed : Q)
        (width : Z) (self : Column.t) (calls : list call) (w : World) :
  (exists self' w',
      do_calls self calls w = (Ok self', w')
      /\ map Character.color (Column.characters self')
         = map Character.color (Column.characters self))
  /\ (exists col w1 col' w2,
         Column.__init__ head palette speed width w = (Ok col, w1)
         /\ map Character.color (Column.characters col) = palette
         /\ do_calls col calls w1 = (Ok col', w2)
         /\ map Character.color (Column.characters col') = palette).
Proof.
  split.
  - destruct (do_calls_frame calls self w) as (self' & w' & run & cs & _).
    exists self', w'. auto.
  - destruct (init_spec head palette speed width w)
      as (chars & w1 & run & _ & cs & _).
    destruct (do_calls_frame calls (Column.mk speed chars width) w1)
      as (col' & w2 & run' & cs' & _).
    eexists _, w1, col', w2. split; [exact run |].
    split; [exact cs |]. split; [exact run' |].
    rewrite cs'. exact cs.
Qed.

(** C10. The horizontal position of every character is set when the column
    is constructed and no call changes it: [step] changes rows only,
    [reset] changes the speed, rows and glyphs only. *)
Theorem x_fixed_at_construction (head : Z * Z) (palette : list attr)
        (speed new_speed : Q) (width : Z) (self : Column.t) (screen : Screen)
        (calls : list call) (w : World) :
  (exists col w',
      Column.__init__ head palette speed width w = (Ok col, w')
      /\ map Character.x (Column.characters col)
         = map (fun _ => snd head) palette)
  /\ (exists still_visible self' w',
         Column.step self screen w = (Ok (still_visible, self'), w')
         /\ Column.min_falling_speed self' = Column.min_falling_speed self
         /\ Column.width self' = Column.width self
         /\ map Character.x (Column.characters self')
            = map Character.x (Column.characters self)
         /\ map Character.symbol (Column.characters self')
            = map Character.symbol (Column.characters self)
         /\ map Character.color (Column.characters self')
            = map Character.color (Column.characters self))
  /\ (exists self' w',
         Column.reset self new_speed w = (Ok self', w')
         /\ Column.width self' = Column.width self
         /\ map Character.x (Column.characters self')
            = map Character.x (Column.characters self)
         /\ map Character.color (Column.characters self')
            = map Character.color (Column.characters self))
  /\ (exists self' w',
         do_calls self calls w = (Ok self', w')
         /\ map Character.x (Column.characters self')
            = map Character.x (Column.characters self)).
Proof.
  split; [| split; [| split]].
  - destruct (init_spec head palette speed width w)
      as (chars & w' & run & _ & _ & xs & _).
    eexists _, w'. split; [exact run | exact xs].
  - destruct (step_spec self screen w) as (w' & run & _ & _).
    destruct (advance_frame (Column.min_falling_speed self)
                            (Column.characters self)) as (xs & ss & cs).
    eexists _, _, w'. split; [exact run |]. repeat split; assumption.
  - destruct (reset_spec self new_speed w)
      as (glyphs & chars & w' & run & _ & _ & cs & xs & _).
    eexists _, w'. split; [exact run |]. repeat split; assumption.
  - destruct (do_calls_frame calls self w) as (self' & w' & run & _ & xs & _).
    exists self', w'. auto.
Qed.

(** ** How long a column stays on screen *)

Lemma existsb_map {A B} (f : A -> B) (p : B -> bool) l :
  existsb p (map f l) = existsb (fun a => p (f a)) l.
Proof.
  induction l as [| a l IH]; simpl; [reflexivity |]. rewrite IH. reflexivity.
Qed.

Lemma existsb_ext {A} (p q : A -> bool) l :
  (forall a, p a = q a) -> existsb p l = existsb q l.
Proof.
  intros same. induction l as [| a l IH]; simpl; [reflexivity |].
  rewrite same, IH. reflexivity.
Qed.

Lemma int_inject_Z z : int (inject_Z z) = z.
Proof. unfold int, inject_Z. simpl. apply Z.quot_1_r. Qed.

Lemma staggered_advance k n :
  map (fun q => q + 1)%Q (staggered k n) = staggered (k + 1) n.
Proof.
  unfold staggered. rewrite map_map. apply map_ext. intros i.
  unfold Qplus, inject_Z. simpl. f_equal. lia.
Qed.

Lemma visible_staggered max_y k chars :
  map Character.y chars = staggered k (length chars) ->
  existsb (visible max_y) chars = some_visible max_y k (length chars).
Proof.
  intros rows. unfold some_visible.
  transitivity (existsb (fun q => is_on_screen max_y (int q))
                        (map Character.y chars)).
  - rewrite existsb_map. reflexivity.
  - rewrite rows. unfold staggered. rewrite existsb_map.
    apply existsb_ext. intros i. rewrite int_inject_Z. reflexivity.
Qed.

(** The rows of a freshly built column are staggered upward from its head. *)
Lemma init_rows (head : Z * Z) (colors : list attr) (speed : Q) (width : Z)
      (w : World) :
  exists col w',
    Column.__init__ head colors speed width w = (Ok col, w')
    /\ Column.min_falling_speed col = speed
    /\ length (Column.characters col) = length colors
    /\ map Character.y (Column.characters col)
       = staggered (fst head) (length colors).
Proof.
  destruct (init_spec head colors speed width w)
    as (chars & w' & run & _ & cs & _ & _ & nth).
  assert (len : length chars = length colors).
  { rewrite <- cs. symmetry. apply length_map. }
  eexists _, w'. split; [exact run |]. split; [reflexivity |].
  split; [exact len |]. cbn [Column.characters].
  apply nth_error_ext. intros i. unfold staggered.
  rewrite !nth_error_map, nth_error_seq.
  destruct (Nat.ltb_spec i (length colors)) as [lt | ge].
  - destruct (nth_error colors i) as [color |] eqn:found.
    2: { apply nth_error_None in found. lia. }
    destruct (nth i color found) as (char & at_i & row).
    rewrite at_i. simpl. rewrite row. reflexivity.
  - assert (nth_error chars i = None) as -> by (apply nth_error_None; lia).
    reflexivity.
Qed.

(** With speed 1, what successive calls of [step] return follows from the
    row the head was staged at. *)
Lemma step_returns_staggered (screen : Screen) (n : nat) :
  forall (col : Column.t) (k : Z) (w : World),
    Column.min_falling_speed col = 1%Q ->
    map Character.y (Column.characters col)
    = staggered k (length (Column.characters col)) ->
    exists w',
      step_returns n col screen w
      = (Ok (map (fun j => some_visible (LINES screen) (k + Z.of_nat j)
                                        (length (Column.characters col)))
                 (seq 0 n)), w').
Proof.
  induction n as [| n IH]; intros col k w speed rows.
  - exists w. reflexivity.
  - destruct (step_spec col screen w) as (w1 & run & _ & _).
    rewrite speed in run.
    set (col' := Column.mk 1%Q (map (advance 1%Q) (Column.characters col))
                           (Column.width col)) in *.
    assert (len : length (Column.characters col')
                  = length (Column.characters col)).
    { apply length_map. }
    destruct (IH col' (k + 1) w1) as (w2 & run').
    + reflexivity.
    + rewrite len. rewrite <- staggered_advance, <- rows.
      cbn [col' Column.characters]. rewrite !map_map. reflexivity.
    + exists w2. cbn [step_returns].
      rewrite (bind_ok _ _ _ _ _ run), (bind_ok _ _ _ _ _ run').
      unfold ret. f_equal. f_equal. cbn [seq map]. f_equal.
      * rewrite (visible_staggered _ k _ rows). f_equal. lia.
      * rewrite len, <- seq_shift, map_map. apply map_ext.
        intros j. f_equal. lia.
Qed.

(** C3, as the code has it. A column with speed 1.0 whose head starts at
    row 0 on a 24-row screen, with a palette of length 24, is visible for
    47 calls of [step]; the 48th call is the first to return false, once
    the tail character has passed row 23. *)
Theorem column_leaves_at_step_48 (x : Z) (palette : list attr) (width : Z)
        (screen : Screen) (w : World) :
  length palette = 24%nat ->
  LINES screen = 24 ->
  exists col w1 w2,
    Column.__init__ (0, x) palette 1 width w = (Ok col, w1)
    /\ step_returns 48 col screen w1 = (Ok (repeat true 47 ++ [false]), w2).
Proof.
  intros len rows24.
  destruct (init_rows (0, x) palette 1 width w)
    as (col & w1 & run & speed & chars & rows).
  rewrite <- chars in rows.
  destruct (step_returns_staggered screen 48 col 0 w1 speed rows)
    as (w2 & run').
  exists col, w1, w2. split; [exact run |].
  rewrite run', chars, len, rows24. reflexivity.
Qed.

Lemma column_leaves_at_step_48_witness :
  length (repeat (color_pair 1) 24) = 24%nat
  /\ LINES (mkScreen 24 80 256 true true) = 24
  /\ exists col w1 w2,
      Column.__init__ (0, 0) (repeat (color_pair 1) 24) 1 2 quiet
      = (Ok col, w1)
      /\ step_returns 48 col (mkScreen 24 80 256 true true) w1
         = (Ok (repeat true 47 ++ [false]), w2).
Proof.
  split; [reflexivity |]. split; [reflexivity |].
  apply (column_leaves_at_step_48 0 (repeat (color_pair 1) 24) 2
                                  (mkScreen 24 80 256 true true) quiet);
    reflexivity.
Defined.

(** C3 fails as stated: the 24th call of [step], and the 25th, still
    return true. *)
Lemma column_visible_at_step_24 :
  exists col w1 w2,
    Column.__init__ (0, 0) (repeat (color_pair 1) 24) 1 2 quiet = (Ok col, w1)
    /\ step_returns 25 col (mkScreen 24 80 256 true true) w1
       = (Ok (repeat true 25), w2).
Proof.
  do 3 eexists. split; vm_compute; reflexivity.
Qed.

(** ** The column container *)

Lemma Forall_map_iff {A B} (f : A -> B) (P : B -> Prop) l :
  Forall P (map f l) <-> Forall (fun a => P (f a)) l.
Proof. apply Forall_map. Qed.

Lemma wp_random_falling_speed (self : Rain.t) w :
  wp (Rain._random_falling_speed self) (fun _ w' => drew w w') w.
Proof. apply wp_uniform. Qed.

Lemma generate_column_spec (self : Rain.t) (palette : list attr) (x : Z) w :
  Rain.color_pairs self = Some palette ->
  wp (Rain._generate_column self x)
     (fun col w' => built_at self palette x col /\ drew w w') w.
Proof.
  intros colors. unfold Rain._generate_column. apply wp_bind.
  eapply wp_mono; [apply wp_random_falling_speed |].
  intros speed w1 d1. rewrite colors.
  destruct (init_spec (0, x) palette speed (Rain.column_spacing self) w1)
    as (chars & w2 & run & d2 & cs & xs & wide2 & _).
  eexists _, w2. split; [exact run |]. split.
  - unfold built_at. cbn [Column.width Column.characters].
    split; [reflexivity |]. split; [exact cs |]. split; [exact xs |].
    apply Forall_map_iff. exact wide2.
  - exact (drew_trans _ _ _ d1 d2).
Qed.

(** [generate_all_columns] builds one column per item of
    [range(0, max_x - column_spacing, column_spacing)], in order. *)
Lemma generate_all_columns_spec (self : Rain.t) (palette : list attr) w :
  Rain.color_pairs self = Some palette ->
  Rain.column_spacing self <> 0 ->
  exists cols w',
    Rain.generate_all_columns self w
    = (Ok (Rain.mk (Rain.screen self) (Rain.time_step_sec self)
                   (Rain.min_falling_speed self) (Some cols)
                   (Rain.color_pairs self) (Rain.column_spacing self)), w')
    /\ drew w w'
    /\ Forall2 (built_at self palette)
               (range_items 0 (COLS (Rain.screen self)
                               - Rain.column_spacing self)
                            (Rain.column_spacing self))
               cols.
Proof.
  intros colors nz.
  destruct (wp_mapM (Rain._generate_column self) (built_at self palette)
                    (drew w)
                    (range_items 0 (COLS (Rain.screen self)
                                    - Rain.column_spacing self)
                                 (Rain.column_spacing self)))
    with (w := w) as (cols & w' & run & all & d).
  - intros x w1 _ d1.
    eapply wp_mono; [apply generate_column_spec, colors |].
    intros col w2 [b d2]. eauto using drew_trans.
  - apply drew_refl.
  - exists cols, w'. split; [| auto].
    unfold Rain.generate_all_columns, range, getmaxyx. cbn [snd].
    destruct (Z.eqb_spec (Rain.column_spacing self) 0); [contradiction |].
    unfold bind at 1, ret at 1. rewrite (bind_ok _ _ _ _ _ run). reflexivity.
Qed.

(** C1, as the code has it. [generate_all_columns] creates one column at
    every multiple of the column spacing from 0 up to, but not including,
    the screen width less the spacing; on a screen 10 cells wide with
    spacing 2 these are the columns 0, 2, 4, 6. *)
Theorem columns_at_slots (self : Rain.t) (palette : list attr) (w : World) :
  Rain.color_pairs self = Some palette ->
  0 < Rain.column_spacing self ->
  let spacing := Rain.column_spacing self in
  let slots := range_items 0 (COLS (Rain.screen self) - spacing) spacing in
  exists self' cols w',
    Rain.generate_all_columns self w = (Ok self', w')
    /\ Rain.columns self' = Some cols
    /\ Forall2 (fun x col =>
                  map Character.x (Column.characters col)
                  = map (fun _ => x) palette)
               slots cols
    /\ StronglySorted Z.lt slots
    /\ (forall x,
          In x slots
          <-> 0 <= x < COLS (Rain.screen self) - spacing
              /\ x mod spacing = 0)
    /\ (COLS (Rain.screen self) = 10 -> spacing = 2 -> slots = [0; 2; 4; 6]).
Proof.
  intros colors positive spacing slots.
  destruct (generate_all_columns_spec self palette w colors)
    as (cols & w' & run & _ & all); [lia |].
  eexists _, cols, w'. split; [exact run |]. split; [reflexivity |].
  split; [| split; [| split]].
  - eapply Forall2_impl; [| exact all]. intros x col (_ & _ & xs & _). exact xs.
  - apply range_items_increasing, positive.
  - intros x. unfold slots. rewrite In_range_items by exact positive.
    rewrite Z.sub_0_r. reflexivity.
  - intros ten two. unfold slots. rewrite ten, two. reflexivity.
Qed.

Lemma columns_at_slots_witness :
  let self := Rain.mk (mkScreen 24 10 256 true true) (1 # 100) (1 # 20) None
                      (Some (repeat (color_pair 4) 30)) 2 in
  let palette := repeat (color_pair 4) 30 in
  let slots := range_items 0 (10 - 2) 2 in
  Rain.color_pairs self = Some palette
  /\ 0 < Rain.column_spacing self
  /\ exists self' cols w',
      Rain.generate_all_columns self quiet = (Ok self', w')
      /\ Rain.columns self' = Some cols
      /\ Forall2 (fun x col =>
                    map Character.x (Column.characters col)
                    = map (fun _ => x) palette)
                 slots cols
      /\ StronglySorted Z.lt slots
      /\ (forall x, In x slots <-> 0 <= x < 10 - 2 /\ x mod 2 = 0)
      /\ (10 = 10 -> 2 = 2 -> slots = [0; 2; 4; 6]).
Proof.
  intros self palette slots.
  split; [reflexivity |]. split; [reflexivity |].
  apply (columns_at_slots self palette quiet); reflexivity.
Defined.

(** C1 fails as stated: on a screen of 24 rows and 10 cells with spacing 2
    the program builds 4 columns, at 0, 2, 4 and 6, and none at 8. *)
Lemma four_columns_on_ten_cells :
  exists self1 w1 self2 cols w2,
    Rain.generate_green_palette
      (Rain.__init__ (mkScreen 24 10 256 true true) (1 # 100) (1 # 20)) quiet
    = (Ok self1, w1)
    /\ Rain.column_spacing self1 = 2
    /\ Rain.generate_all_columns self1 w1 = (Ok self2, w2)
    /\ Rain.columns self2 = Some cols
    /\ length cols = 4%nat
    /\ map (fun col => map Character.x (Column.characters col)) cols
       = [repeat 0 30; repeat 2 30; repeat 4 30; repeat 6 30].
Proof.
  do 5 eexists.
  split; [vm_compute; reflexivity |].
  split; [reflexivity |].
  split; [vm_compute; reflexivity |].
  split; [reflexivity |].
  split; reflexivity.
Qed.

(** ** Every write stays on the screen *)

Lemma steps_in_bounds (screen : Screen) (col : Column.t) (e : event) :
  fits screen col -> steps (LINES screen) col e -> in_bounds screen e.
Proof.
  intros (wd & xs & ss) [(char & inc & vis & ->) | (char & y & inc & er)].
  - rewrite Forall_forall in xs, ss.
    specialize (xs _ (in_map Character.x _ _ inc)).
    specialize (ss _ (in_map Character.symbol _ _ inc)).
    unfold visible, is_on_screen in vis. simpl. rewrite ss. lia.
  - destruct er as (row & range & _ & ->).
    rewrite Forall_forall in xs.
    specialize (xs _ (in_map Character.x _ _ inc)).
    simpl. rewrite wd. change (display_width (spaces 2)) with 2. lia.
Qed.

Lemma fits_after_step (screen : Screen) (col : Column.t) :
  fits screen col ->
  fits screen
       (Column.mk (Column.min_falling_speed col)
                  (map (advance (Column.min_falling_speed col))
                       (Column.characters col))
                  (Column.width col)).
Proof.
  intros (wd & xs & ss).
  destruct (advance_frame (Column.min_falling_speed col)
                          (Column.characters col)) as (same_x & same_s & _).
  unfold fits. cbn [Column.width Column.characters].
  rewrite same_x, same_s. auto.
Qed.

Lemma fits_after_reset (screen : Screen) (col : Column.t) (speed : Q) w :
  fits screen col ->
  wp (Column.reset col speed)
     (fun col' w' => fits screen col' /\ drew w w') w.
Proof.
  intros (wd & xs & _).
  destruct (reset_spec col speed w)
    as (glyphs & chars & w' & run & _ & d & _ & same_x & wide2 & _).
  eexists _, w'. split; [exact run |]. split; [| exact d].
  unfold fits. cbn [Column.width Column.characters].
  rewrite same_x. split; [exact wd |]. split; [exact xs |].
  apply Forall_map_iff. exact wide2.
Qed.

(** One column's turn in [Rain.step]. *)
Lemma step_column_spec (self : Rain.t) (col : Column.t) w :
  fits (Rain.screen self) col ->
  wp (Rain.step_column self col)
     (fun col' w' =>
        fits (Rain.screen self) col'
        /\ emitted (in_bounds (Rain.screen self)) w w') w.
Proof.
  intros ok. unfold Rain.step_column.
  destruct (step_spec col (Rain.screen self) w) as (w1 & run & _ & em).
  assert (em1 : emitted (in_bounds (Rain.screen self)) w w1).
  { eapply emitted_weaken; [| exact em].
    intros e. apply steps_in_bounds, ok. }
  apply wp_bind. eexists _, w1. split; [exact run |].
  pose proof (fits_after_step _ _ ok) as ok1.
  destruct (existsb _ _); cbn [negb].
  - apply wp_ret. auto.
  - apply wp_bind.
    eapply wp_mono; [apply wp_random_falling_speed |].
    intros speed w2 d2.
    eapply wp_mono; [apply fits_after_reset, ok1 |].
    intros col' w3 [ok3 d3]. split; [exact ok3 |].
    eapply emitted_trans; [exact em1 |].
    apply drew_emitted. exact (drew_trans _ _ _ d2 d3).
Qed.

Lemma Forall2_right {A B} (P : B -> Prop) (l : list A) (l' : list B) :
  Forall2 (fun _ b => P b) l l' -> Forall P l'.
Proof. induction 1; constructor; auto. Qed.

(** One tick of the animation. *)
Lemma rain_step_spec (self : Rain.t) w :
  all_fit self ->
  wp (Rain.step self)
     (fun self' w' =>
        all_fit self'
        /\ Rain.screen self' = Rain.screen self
        /\ emitted (in_bounds (Rain.screen self)) w w') w.
Proof.
  intros (cols & have & ok). unfold Rain.step. rewrite have.
  apply wp_bind.
  eapply wp_mono.
  - apply (wp_mapM (Rain.step_column self)
                   (fun _ col' => fits (Rain.screen self) col')
                   (emitted (in_bounds (Rain.screen self)) w)).
    + intros col w1 inc em1.
      rewrite Forall_forall in ok.
      eapply wp_mono; [apply step_column_spec, ok, inc |].
      intros col' w2 [ok2 em2]. split; [exact ok2 |].
      exact (emitted_trans _ _ _ _ em1 em2).
    + apply emitted_refl.
  - intros cols' w1 [all em1]. apply Forall2_right in all.
    apply wp_bind, wp_emit, wp_bind, wp_emit, wp_ret.
    split; [| split; [reflexivity |]].
    + exists cols'. auto.
    + eapply emitted_trans; [exact em1 |].
      eapply emitted_trans; apply emitted_one; exact I.
Qed.

(** Any number of ticks. *)
Lemma animate_spec (polls : nat) :
  forall (self : Rain.t) w,
    all_fit self ->
    wp (animate polls self)
       (fun _ w' => emitted (in_bounds (Rain.screen self)) w w') w.
Proof.
  induction polls as [| polls IH]; intros self w ok; cbn [animate].
  - apply wp_ret, emitted_refl.
  - apply wp_bind.
    eapply wp_mono; [apply rain_step_spec, ok |].
    intros self1 w1 (ok1 & same & em1).
    eapply wp_mono; [apply IH, ok1 |].
    intros self2 w2 em2. rewrite same in em2.
    exact (emitted_trans _ _ _ _ em1 em2).
Qed.

(** The columns [generate_all_columns] builds with spacing 2 fit. *)
Lemma generated_columns_fit (self : Rain.t) (palette : list attr) w :
  Rain.color_pairs self = Some palette ->
  Rain.column_spacing self = 2 ->
  wp (Rain.generate_all_columns self)
     (fun self' w' =>
        all_fit self' /\ Rain.screen self' = Rain.screen self /\ drew w w') w.
Proof.
  intros colors two.
  destruct (generate_all_columns_spec self palette w colors)
    as (cols & w' & run & d & all); [lia |].
  eexists _, w'. split; [exact run |].
  split; [| split; [reflexivity | exact d]].
  exists cols. split; [reflexivity |]. cbn [Rain.screen].
  rewrite two in all.
  assert (slots : Forall (fun x => 0 <= x < COLS (Rain.screen self) - 2)
                         (range_items 0 (COLS (Rain.screen self) - 2) 2)).
  { apply Forall_forall. intros x inx.
    apply In_range_items in inx; [tauto | lia]. }
  clear run. revert slots.
  induction all as [| x col xs cols' b _ IH]; intros slots.
  - constructor.
  - inversion slots as [| ? ? range rest]; subst. constructor; [| auto].
    destruct b as (wd & _ & at_x & wide2).
    split; [congruence |]. split; [| exact wide2].
    rewrite at_x. apply Forall_map_iff, Forall_forall. intros _ _. lia.
Qed.

(** Any number of calls of [step] on a column that fits. *)
Lemma step_returns_in_bounds (screen : Screen) (n : nat) :
  forall (col : Column.t) w,
    fits screen col ->
    wp (step_returns n col screen)
       (fun _ w' => emitted (in_bounds screen) w w') w.
Proof.
  induction n as [| n IH]; intros col w ok; cbn [step_returns].
  - apply wp_ret, emitted_refl.
  - destruct (step_spec col screen w) as (w1 & run & _ & em).
    apply wp_bind. eexists _, w1. split; [exact run |].
    apply wp_bind.
    eapply wp_mono; [apply IH, fits_after_step, ok |].
    intros bs w2 em2. apply wp_ret.
    eapply emitted_trans; [| exact em2].
    eapply emitted_weaken; [| exact em].
    intros e. apply steps_in_bounds, ok.
Qed.

(** C9. For a container with any palette, once its columns are generated,
    every write issued to the screen, drawing or erasing, is on a row of
    the screen and ends, glyph width included, within the screen's width:
    through any number of ticks of the animation, and through any number
    of calls of [step] on any one of the columns. *)
Theorem writes_in_bounds (screen : Screen) (time_step_sec min_falling_speed : Q)
        (palette : list attr) (polls : nat) (w : World) :
  let self := Rain.mk screen time_step_sec min_falling_speed None
                      (Some palette) 2 in
  exists self1 cols w1 self2 w2 evs,
    Rain.generate_all_columns self w = (Ok self1, w1)
    /\ Rain.columns self1 = Some cols
    /\ out w1 = out w
    /\ animate polls self1 w1 = (Ok self2, w2)
    /\ out w2 = out w ++ evs
    /\ Forall (in_bounds screen) evs
    /\ forall col n w',
        In col cols ->
        exists returns w'' evs',
          step_returns n col screen w' = (Ok returns, w'')
          /\ out w'' = out w' ++ evs'
          /\ Forall (in_bounds screen) evs'.
Proof.
  intros self.
  destruct (generated_columns_fit self palette w eq_refl eq_refl)
    as (self1 & w1 & run1 & ok1 & same & d1).
  destruct (animate_spec polls self1 w1 ok1)
    as (self2 & w2 & run2 & _ & evs & o & f).
  destruct ok1 as (cols & have & ok1).
  exists self1, cols, w1, self2, w2, evs.
  split; [exact run1 |]. split; [exact have |]. split; [apply d1 |].
  split; [exact run2 |].
  split; [| split].
  - rewrite o. f_equal. apply d1.
  - rewrite same in f. exact f.
  - intros col n w' inc. rewrite Forall_forall in ok1.
    rewrite same in ok1.
    destruct (step_returns_in_bounds screen n col w' (ok1 col inc))
      as (returns & w'' & run & _ & evs' & o' & f').
    exists returns, w'', evs'. auto.
Qed.

(** ** The whole program *)

Lemma terminal_ok_accepts (screen : Screen) w :
  2 <= COLORS screen ->
  has_colors screen = true ->
  can_change_color screen = true ->
  terminal_ok screen w = (Ok true, w).
Proof.
  intros enough colors change. unfold terminal_ok.
  destruct (Z.ltb_spec (COLORS screen) 2); [lia |].
  rewrite colors, change. reflexivity.
Qed.

Ltac nonempty_case :=
  eexists; split; [vm_compute; reflexivity | discriminate].

Lemma greens_nonempty (COLORS : Z) w :
  3 <= COLORS ->
  exists gs, Rain.greens COLORS w = (Ok gs, w) /\ gs <> [].
Proof.
  intros enough.
  assert (cases : COLORS = 3 \/ COLORS = 4 \/ COLORS = 5 \/ COLORS = 6
                  \/ COLORS = 7 \/ COLORS = 8 \/ 9 <= COLORS) by lia.
  destruct cases as [-> | [-> | [-> | [-> | [-> | [-> | many]]]]]];
    try nonempty_case.
  unfold Rain.greens. rewrite Z.min_l by lia. nonempty_case.
Qed.

(** From 3 colors on, a terminal that passes the capability check runs the
    program to its end, whenever the key is pressed and with arguments the
    program accepts, and every write stays on the screen. *)
Lemma main_runs_from_three_colors
      (polls : nat) (screen : Screen) (time_step_sec min_falling_speed : Q) w :
  3 <= COLORS screen ->
  has_colors screen = true ->
  can_change_color screen = true ->
  accepted_arguments time_step_sec min_falling_speed ->
  wp (main polls screen time_step_sec min_falling_speed)
     (fun _ w' => emitted (in_bounds screen) w w') w.
Proof.
  intros enough colors change _. unfold main.
  apply wp_bind, wp_emit, wp_bind, wp_emit, wp_bind, wp_emit, wp_bind.
  set (w1 := mkWorld _ _ _).
  assert (em1 : emitted (in_bounds screen) w w1).
  { split; [reflexivity |]. exists [CursSet 0; Nodelay 1; StartColor].
    unfold w1. cbn [out]. rewrite <- !app_assoc. split; [reflexivity |].
    repeat constructor. }
  eexists _, w1. split; [apply terminal_ok_accepts; [lia | auto ..] |].
  cbn [negb]. apply wp_bind, wp_ret, wp_bind.
  destruct (greens_nonempty (COLORS screen) w1 enough) as (gs & rung & ne).
  destruct (generate_green_palette_spec
              (Rain.__init__ screen time_step_sec min_falling_speed)
              w1 gs rung ne) as (mid & w2 & _ & em2 & run2).
  eexists _, w2. split; [exact run2 |].
  apply wp_bind.
  eapply wp_mono; [eapply generated_columns_fit; reflexivity |].
  intros r3 w3 (ok3 & same3 & d3). cbn [Rain.screen Rain.__init__] in same3.
  apply wp_bind.
  eapply wp_mono; [apply animate_spec, ok3 |].
  intros r4 w4 em4. rewrite same3 in em4.
  apply wp_bind, wp_emit, wp_emit.
  eapply emitted_trans; [exact em1 |].
  eapply emitted_trans.
  { eapply emitted_weaken; [| exact em2].
    intros [] sets; try contradiction; exact I. }
  eapply emitted_trans; [apply drew_emitted, d3 |].
  eapply emitted_trans; [exact em4 |].
  eapply emitted_trans; apply emitted_one; exact I.
Qed.


(** ** What [step] writes, exactly *)

Lemma step_for_trace max_y speed chars :
  forall l w,
    Column.step_for max_y speed chars l w
    = (Ok (map (advance speed) chars,
           (fst l || existsb (visible max_y) chars, last_seen chars (snd l))),
       mkWorld (tape w) (pos w) (out w ++ draw_events max_y chars)).
Proof.
  induction chars as [| char rest IH]; intros [vis yx] w.
  - cbn. rewrite orb_false_r, app_nil_r. destruct w. reflexivity.
  - cbn [Column.step_for]. fold (visible max_y char).
    unfold draw_events. cbn [filter].
    destruct (visible max_y char) eqn:on; cbn [negb fst].
    + erewrite bind_ok by reflexivity. erewrite bind_ok by apply IH.
      cbn [existsb map last_seen fst snd tape pos out].
      rewrite on, orb_true_r, <- app_assoc. reflexivity.
    + erewrite bind_ok by reflexivity. erewrite bind_ok by apply IH.
      cbn [existsb map last_seen fst snd]. rewrite on. reflexivity.
Qed.

Lemma erase_events_on_screen max_y y x width :
  is_on_screen max_y y = true ->
  erase_events max_y y x width
  = Addstr y x (spaces width) None :: erase_events max_y (y - 1) x width.
Proof.
  intros on. unfold erase_events. rewrite on.
  unfold is_on_screen in *.
  replace (Z.to_nat (y + 1)) with (S (Z.to_nat y)) by lia.
  cbn [seq map]. f_equal; [f_equal; lia |].
  destruct (Z.eqb_spec y 0) as [-> | nz].
  - reflexivity.
  - replace ((0 <=? y - 1) && (y - 1 <? max_y)) with true by lia.
    replace (Z.to_nat (y - 1 + 1)) with (Z.to_nat y) by lia.
    rewrite <- seq_shift, map_map. apply map_ext. intros i. f_equal. lia.
Qed.

Lemma step_while_trace max_y y x width :
  forall w,
    Column.step_while max_y y x width w
    = (Ok tt,
       mkWorld (tape w) (pos w) (out w ++ erase_events max_y y x width)).
Proof.
  funelim (Column.step_while max_y y x width); intros w.
  - match goal with
    | IH : unit -> World -> forall w, _ = _ |- _ =>
        erewrite bind_ok by reflexivity; rewrite (IH tt w)
    end.
    cbn [tape pos out].
    rewrite (erase_events_on_screen _ _ _ _ on_screen), <- app_assoc.
    reflexivity.
  - unfold erase_events.
    match goal with H : is_on_screen _ _ = false |- _ => rewrite H end.
    rewrite app_nil_r. destruct w. reflexivity.
Qed.

(** X1. One call of [step] returns whether some character was on a screen
    row when it was called, advances every row by the speed, consumes no
    random draw, and writes exactly: every on-screen character at its row
    before the move, in column order, then blanks of the column's width on
    every row from the one above the last character up to row 0, or no
    blank at all when that row is off screen. *)
Theorem step_writes_exactly (self : Column.t) (screen : Screen) (w : World) :
  Column.step self screen w
  = (Ok (existsb (visible (LINES screen)) (Column.characters self),
         Column.mk (Column.min_falling_speed self)
                   (map (advance (Column.min_falling_speed self))
                        (Column.characters self))
                   (Column.width self)),
     mkWorld (tape w) (pos w)
             (out w
              ++ draw_events (LINES screen) (Column.characters self)
              ++ erase_events
                   (LINES screen)
                   (fst (last_seen (Column.characters self) (-1, -1)) - 1)
                   (snd (last_seen (Column.characters self) (-1, -1)))
                   (Column.width self))).
Proof.
  unfold Column.step, getmaxyx.
  erewrite bind_ok by apply step_for_trace.
  cbn [fst snd orb].
  destruct (last_seen (Column.characters self) (-1, -1)) as [y x].
  erewrite bind_ok by apply step_while_trace.
  cbn [fst snd tape pos out]. rewrite <- app_assoc. reflexivity.
Qed.

(** ** When a column is on screen *)

Lemma int_Qeq (p q : Q) : (p == q)%Q -> int p = int q.
Proof.
  unfold Qeq, int. destruct p as [n d], q as [n' d']. cbn [Qnum Qden].
  intros same.
  rewrite <- (Z.quot_mul_cancel_r n (Zpos d) (Zpos d')) by lia.
  rewrite same.
  rewrite (Z.mul_comm (Zpos d) (Zpos d')).
  apply Z.quot_mul_cancel_r; lia.
Qed.

Lemma visible_advance_still max_y (speed : Q) (char : Character.t) :
  (speed == 0)%Q -> visible max_y (advance speed char) = visible max_y char.
Proof.
  intros still. unfold visible, advance. cbn [Character.set_y Character.y].
  f_equal. apply int_Qeq. rewrite still. apply Qplus_0_r.
Qed.

(** X2. A column is on screen at the call of [step] that follows a
    [reset]: on a screen with at least one row, a column that has
    characters answers true to that call, whatever the new speed. *)
Theorem restaged_column_is_visible (self : Column.t) (speed : Q)
        (screen : Screen) (w : World) :
  Column.characters self <> [] ->
  0 < LINES screen ->
  exists self1 w1 self2 w2,
    Column.reset self speed w = (Ok self1, w1)
    /\ Column.step self1 screen w1 = (Ok (true, self2), w2).
Proof.
  intros some rows.
  destruct (reset_spec self speed w)
    as (glyphs & chars & w1 & run & _ & _ & _ & _ & _ & nth).
  destruct (Column.characters self) as [| head rest]; [contradiction |].
  destruct (nth 0%nat head eq_refl) as (head' & glyph & at_0 & _ & row & _).
  destruct chars as [| c chars]; [discriminate at_0 |].
  injection at_0 as ->.
  eexists _, w1, _, _. split; [exact run |].
  rewrite step_writes_exactly. cbn [Column.characters existsb].
  unfold visible at 1. rewrite row. cbn [Z.of_nat Z.opp].
  rewrite int_inject_Z. unfold is_on_screen.
  replace ((0 <=? 0) && (0 <? LINES screen)) with true by lia.
  reflexivity.
Qed.

Lemma restaged_column_is_visible_witness :
  let self := Column.mk 1 [Character.mk 30 4 [65; 66] (color_pair 1)] 2 in
  Column.characters self <> []
  /\ 0 < LINES (mkScreen 24 80 256 true true)
  /\ exists self1 w1 self2 w2,
      Column.reset self 3 quiet = (Ok self1, w1)
      /\ Column.step self1 (mkScreen 24 80 256 true true) w1
         = (Ok (true, self2), w2).
Proof.
  intros self. split; [discriminate |]. split; [reflexivity |].
  apply (restaged_column_is_visible self 3 (mkScreen 24 80 256 true true)
                                    quiet); [discriminate | reflexivity].
Defined.

Lemma some_visible_window (max_y k : Z) (n : nat) :
  0 < max_y -> (0 < n)%nat ->
  some_visible max_y k n = (0 <=? k) && (k <? max_y + Z.of_nat n - 1).
Proof.
  intros rows chars. unfold some_visible, is_on_screen.
  apply eq_true_iff_eq. rewrite existsb_exists. split.
  - intros (i & ini & on). apply in_seq in ini. lia.
  - intros window.
    exists (Z.to_nat (Z.max 0 (k - (max_y - 1)))). split.
    + apply in_seq. lia.
    + apply andb_true_iff in window. destruct window as [lo hi].
      apply Z.leb_le in lo. apply Z.ltb_lt in hi.
      apply andb_true_iff. split; [apply Z.leb_le | apply Z.ltb_lt]; lia.
Qed.

(** X3. With speed 1.0 and its head staged at row 0, a column of [P >= 1]
    characters on a screen of [H >= 1] rows answers true to the first
    [H + P - 1] calls of [step] and false to the next one. *)
Theorem column_leaves_after_height_plus_length
        (x : Z) (palette : list attr) (width : Z) (screen : Screen)
        (w : World) :
  palette <> [] ->
  0 < LINES screen ->
  exists col w1 w2,
    Column.__init__ (0, x) palette 1 width w = (Ok col, w1)
    /\ step_returns (Z.to_nat (LINES screen) + length palette) col screen w1
       = (Ok (repeat true (Z.to_nat (LINES screen) + length palette - 1)
              ++ [false]), w2).
Proof.
  intros some rows.
  assert (len : (0 < length palette)%nat).
  { destruct palette; [contradiction | simpl; lia]. }
  destruct (init_rows (0, x) palette 1 width w)
    as (col & w1 & run & speed & chars & staged).
  rewrite <- chars in staged.
  destruct (step_returns_staggered
              screen (Z.to_nat (LINES screen) + length palette) col 0 w1
              speed staged) as (w2 & run').
  exists col, w1, w2. split; [exact run |].
  rewrite run', chars. f_equal. f_equal.
  replace (Z.to_nat (LINES screen) + length palette)%nat
    with (S (Z.to_nat (LINES screen) + length palette - 1)) at 1 by lia.
  rewrite seq_S, map_app. cbn [map]. f_equal.
  - transitivity (map (fun _ : nat => true)
                      (seq 0 (Z.to_nat (LINES screen) + length palette - 1))).
    + apply map_ext_in. intros j inj. apply in_seq in inj.
      rewrite some_visible_window by assumption.
      apply andb_true_iff. split; [apply Z.leb_le | apply Z.ltb_lt]; lia.
    + rewrite map_const, length_seq. reflexivity.
  - f_equal. rewrite some_visible_window by assumption.
    apply andb_false_iff. right. apply Z.ltb_ge. lia.
Qed.

Lemma column_leaves_after_height_plus_length_witness :
  let screen := mkScreen 3 80 256 true true in
  let palette := [color_pair 1; color_pair 2] in
  palette <> []
  /\ 0 < LINES screen
  /\ exists col w1 w2,
      Column.__init__ (0, 0) palette 1 2 quiet = (Ok col, w1)
      /\ step_returns (Z.to_nat (LINES screen) + length palette) col screen w1
         = (Ok (repeat true (Z.to_nat (LINES screen) + length palette - 1)
                ++ [false]), w2).
Proof.
  intros screen palette. split; [discriminate |]. split; [reflexivity |].
  apply (column_leaves_after_height_plus_length 0 palette 2 screen quiet);
    [discriminate | reflexivity].
Defined.

Lemma existsb_visible_still max_y (speed : Q) chars :
  (speed == 0)%Q ->
  existsb (visible max_y) (map (advance speed) chars)
  = existsb (visible max_y) chars.
Proof.
  intros still. rewrite existsb_map. apply existsb_ext.
  intros char. apply visible_advance_still, still.
Qed.

(** X4. A column whose speed is zero never leaves and never arrives: every
    call of [step] gives the answer the first one gave. *)
Theorem still_column_keeps_answer (screen : Screen) (n : nat) :
  forall (self : Column.t) (w : World),
    (Column.min_falling_speed self == 0)%Q ->
    exists w',
      step_returns n self screen w
      = (Ok (repeat (existsb (visible (LINES screen))
                             (Column.characters self)) n), w').
Proof.
  induction n as [| n IH]; intros self w still.
  - exists w. reflexivity.
  - set (self' := Column.mk (Column.min_falling_speed self)
                            (map (advance (Column.min_falling_speed self))
                                 (Column.characters self))
                            (Column.width self)).
    destruct (IH self' (snd (Column.step self screen w)) still) as (w' & run).
    exists w'. cbn [step_returns].
    rewrite (bind_ok _ _ _ _ _ (step_writes_exactly self screen w)).
    cbv beta iota. fold self'.
    rewrite step_writes_exactly in run. cbn [snd] in run.
    rewrite (bind_ok _ _ _ _ _ run).
    cbn [self' Column.characters repeat].
    rewrite existsb_visible_still by exact still. reflexivity.
Qed.

Lemma still_column_keeps_answer_witness :
  let self := Column.mk 0 [Character.mk 5 4 [65; 66] (color_pair 1)] 2 in
  let screen := mkScreen 24 80 256 true true in
  (Column.min_falling_speed self == 0)%Q
  /\ exists w',
      step_returns 7 self screen quiet
      = (Ok (repeat (existsb (visible (LINES screen))
                             (Column.characters self)) 7), w').
Proof.
  intros self screen. split; [reflexivity |].
  apply (still_column_keeps_answer screen 7 self quiet). reflexivity.
Defined.

(** ** More on the palette *)

Lemma getitem_world {A B} (seq : list A) (i : nat) (l : list B) w :
  snd (mapM (fun _ => getitem seq i) l w) = w.
Proof.
  induction l as [| b l IH]; cbn [mapM]; [reflexivity |].
  unfold bind at 1, getitem at 1.
  destruct (nth_error seq i) as [a |]; [| reflexivity].
  unfold ret at 1. unfold bind.
  destruct (mapM (fun _ => getitem seq i) l w) as [[bs | e] w'];
    exact IH.
Qed.

Lemma stretch_world (color_pairs : list attr) (column_height : Z) w :
  snd (Rain.stretch color_pairs column_height w) = w.
Proof.
  unfold Rain.stretch, range. cbn [Z.eqb]. unfold bind at 1, ret at 1.
  unfold bind.
  pose proof (getitem_world color_pairs (length color_pairs / 2)
                            (range_items 0 column_height 1) w) as same.
  destruct (mapM _ (range_items 0 column_height 1) w) as [[bs | e] w'];
    exact same.
Qed.


Lemma register_trace (gs : list (Z * Z * Z)) :
  forall start w,
    mapM (fun '(i, (r, g, b)) =>
            emit (InitColor i r g b) ;; emit (InitPair i i COLOR_BLACK))
         (enumerate start gs) w
    = (Ok (map (fun _ => tt) gs),
       mkWorld (tape w) (pos w) (out w ++ register_events start gs)).
Proof.
  induction gs as [| [[r g] b] gs IH]; intros start w.
  - cbn. rewrite app_nil_r. destruct w. reflexivity.
  - cbn [enumerate mapM map].
    erewrite bind_ok by reflexivity.
    rewrite (bind_ok _ _ _ _ _ (IH (start + 1) _)).
    unfold ret. cbn [tape pos out].
    unfold register_events. cbn [enumerate flat_map].
    rewrite <- !app_assoc. reflexivity.
Qed.

(** The world [generate_green_palette] leaves, whether it returns or
    raises: the registrations of the gradient and nothing else. *)
Lemma generate_green_palette_world (self : Rain.t) (gs : list (Z * Z * Z)) w :
  Rain.greens (COLORS (Rain.screen self)) w = (Ok gs, w) ->
  snd (Rain.generate_green_palette self w)
  = mkWorld (tape w) (pos w) (out w ++ register_events 1 gs).
Proof.
  intros rung. unfold Rain.generate_green_palette.
  rewrite (bind_ok _ _ _ _ _ rung).
  rewrite (bind_ok _ _ _ _ _ (register_trace gs 1 w)).
  unfold range. cbn [Z.eqb]. unfold bind at 1, ret at 1.
  unfold bind.
  pose proof (stretch_world
                (map color_pair
                     (range_items 1 (Z.of_nat (length gs) + 1) 1))
                (fst (getmaxyx (Rain.screen self)))
                (mkWorld (tape w) (pos w) (out w ++ register_events 1 gs)))
    as same.
  destruct (Rain.stretch _ _ _) as [[p | e] w2]; exact same.
Qed.

Ltac levels_case :=
  eexists; split; [vm_compute; reflexivity |];
  split; [simpl; lia |];
  repeat constructor; unfold green; simpl; lia.

(** The gradient has fewer levels than the terminal has colors. *)
Lemma greens_levels (COLORS : Z) w :
  2 <= COLORS ->
  exists gs,
    Rain.greens COLORS w = (Ok gs, w)
    /\ Z.of_nat (length gs) < COLORS
    /\ Forall (fun c => c = (0, green c, 0) /\ 0 < green c <= 1000) gs.
Proof.
  intros supported.
  assert (cases : COLORS = 2 \/ COLORS = 3 \/ COLORS = 4 \/ COLORS = 5
                  \/ COLORS = 6 \/ COLORS = 7 \/ COLORS = 8 \/ 9 <= COLORS)
    by lia.
  destruct cases as [-> | [-> | [-> | [-> | [-> | [-> | [-> | many]]]]]]];
    try levels_case.
  unfold Rain.greens. rewrite Z.min_l by lia. levels_case.
Qed.

Lemma register_events_valid (colors : Z) (gs : list (Z * Z * Z)) :
  forall start,
    1 <= start ->
    start + Z.of_nat (length gs) <= colors ->
    Forall (fun c => c = (0, green c, 0) /\ 0 < green c <= 1000) gs ->
    Forall (valid_setup colors) (register_events start gs).
Proof.
  induction gs as [| [[r g] b] gs IH]; intros start low high pure.
  - constructor.
  - inversion pure as [| ? ? [shape level] rest]; subst.
    unfold green in *. cbn [fst snd] in *. injection shape as -> ->.
    cbn [length] in high.
    unfold register_events. cbn [enumerate flat_map app].
    constructor; [cbn; lia |]. constructor; [cbn; lia |].
    apply IH; [lia | lia | exact rest].
Qed.

(** X5. On every terminal the capability check accepts, and whether
    palette construction then succeeds or raises, all it asks of curses is
    to redefine colors numbered from 1 to at most [COLORS - 1] as pure
    greens of intensity in (0, 1000] and to bind the pair of the same
    number to each on black: color 0 is never redefined and no color or
    pair number reaches [COLORS]. *)
Theorem palette_registers_valid_colors (self : Rain.t) (w : World) :
  2 <= COLORS (Rain.screen self) ->
  exists evs,
    out (snd (Rain.generate_green_palette self w)) = out w ++ evs
    /\ Forall (valid_setup (COLORS (Rain.screen self))) evs.
Proof.
  intros supported.
  destruct (greens_levels (COLORS (Rain.screen self)) w supported)
    as (gs & rung & fewer & pure).
  exists (register_events 1 gs). split.
  - rewrite (generate_green_palette_world self gs w rung). reflexivity.
  - apply register_events_valid; [lia | lia | exact pure].
Qed.

Lemma palette_registers_valid_colors_witness :
  let self := Rain.__init__ (mkScreen 24 80 256 true true) (1 # 100) (1 # 20) in
  2 <= COLORS (Rain.screen self)
  /\ exists evs,
      out (snd (Rain.generate_green_palette self quiet)) = out quiet ++ evs
      /\ Forall (valid_setup (COLORS (Rain.screen self))) evs.
Proof.
  intros self. split; [cbn; lia |].
  apply (palette_registers_valid_colors self quiet). cbn. lia.
Defined.



Lemma color_pairs_nth (levels i : nat) :
  (i < levels)%nat ->
  nth_error (map color_pair (range_items 1 (Z.of_nat levels + 1) 1)) i
  = Some (color_pair (Z.of_nat i + 1)).
Proof.
  intros lt. unfold range_items. rewrite !nth_error_map, nth_error_seq.
  rewrite range_len_unit.
  destruct (Nat.ltb_spec i (Z.to_nat (Z.max 0 (Z.of_nat levels + 1 - 1))));
    [| lia].
  cbn [option_map]. f_equal. f_equal. lia.
Qed.

Lemma depth_color_monotone (levels height j j' : nat) :
  (j <= j')%nat -> depth_color levels height j <= depth_color levels height j'.
Proof.
  intros le. unfold depth_color.
  destruct (Nat.ltb_spec j (levels / 2)), (Nat.ltb_spec j' (levels / 2)),
    (Nat.ltb_spec j (levels / 2 + height)),
    (Nat.ltb_spec j' (levels / 2 + height)); lia.
Qed.

(** X7. The stretched palette, depth by depth: built from [L >= 1] levels
    on [H] rows, its entry at depth [j] is the color numbered [j + 1]
    before the midpoint [L / 2], the midpoint's number [L / 2 + 1] for the
    next [H] depths, and [j - H + 2] after them. The numbers start at the
    brightest level, never decrease toward the tail and stay within
    [1..L]. *)
Theorem palette_color_at_depth (self : Rain.t) (w : World)
        (gs : list (Z * Z * Z)) :
  Rain.greens (COLORS (Rain.screen self)) w = (Ok gs, w) ->
  gs <> [] ->
  exists self' w' palette,
    Rain.generate_green_palette self w = (Ok self', w')
    /\ Rain.color_pairs self' = Some palette
    /\ (forall j,
          (j < length palette)%nat ->
          nth_error palette j
          = Some (color_pair
                    (depth_color (length gs)
                                 (Z.to_nat (LINES (Rain.screen self))) j))
          /\ 1 <= depth_color (length gs)
                              (Z.to_nat (LINES (Rain.screen self))) j
             <= Z.of_nat (length gs))
    /\ (forall j j',
          (j <= j')%nat ->
          depth_color (length gs) (Z.to_nat (LINES (Rain.screen self))) j
          <= depth_color (length gs) (Z.to_nat (LINES (Rain.screen self))) j').
Proof.
  intros rung ne.
  destruct (generate_green_palette_spec self w gs rung ne)
    as (mid & w' & found & _ & run).
  set (cps := map color_pair (range_items 1 (Z.of_nat (length gs) + 1) 1))
    in *.
  set (m := (length gs / 2)%nat) in *.
  set (h := Z.to_nat (LINES (Rain.screen self))) in *.
  assert (len : length cps = length gs).
  { unfold cps. rewrite length_map, range_items_length, range_len_unit. lia. }
  assert (positive : (0 < length gs)%nat).
  { destruct gs; [contradiction | simpl; lia]. }
  assert (half : (m < length gs)%nat) by (apply Nat.div_lt; lia).
  assert (is_mid : mid = color_pair (Z.of_nat m + 1)).
  { unfold cps in found. rewrite color_pairs_nth in found by exact half.
    congruence. }
  eexists _, w', _. split; [exact run |]. split; [reflexivity |].
  split; [| intros j j'; apply depth_color_monotone].
  intros j. rewrite !length_app, length_firstn, repeat_length, length_skipn.
  rewrite len. intros inside. unfold depth_color. fold m.
  destruct (Nat.ltb_spec j m) as [before | from].
  - split; [| lia].
    rewrite nth_error_app1 by (rewrite length_firstn; lia).
    rewrite nth_error_firstn.
    destruct (Nat.ltb_spec j m); [| lia].
    apply color_pairs_nth. lia.
  - rewrite nth_error_app2 by (rewrite length_firstn; lia).
    rewrite length_firstn, len.
    replace (Nat.min m (length gs)) with m by lia.
    destruct (Nat.ltb_spec j (m + h)) as [middle | after].
    + split; [| lia].
      rewrite nth_error_app1 by (rewrite repeat_length; lia).
      rewrite nth_error_repeat by lia. rewrite is_mid. reflexivity.
    + split; [| lia].
      rewrite nth_error_app2 by (rewrite repeat_length; lia).
      rewrite repeat_length, nth_error_skipn.
      unfold cps. rewrite color_pairs_nth by lia.
      f_equal. f_equal. lia.
Qed.

Lemma palette_color_at_depth_witness :
  let self := Rain.__init__ (mkScreen 24 80 256 true true) (1 # 100) (1 # 20) in
  let gs := [(0, 1000, 0); (0, 875, 0); (0, 750, 0); (0, 625, 0);
             (0, 500, 0); (0, 375, 0); (0, 250, 0)] in
  Rain.greens (COLORS (Rain.screen self)) quiet = (Ok gs, quiet)
  /\ gs <> []
  /\ exists self' w' palette,
      Rain.generate_green_palette self quiet = (Ok self', w')
      /\ Rain.color_pairs self' = Some palette
      /\ (forall j,
            (j < length palette)%nat ->
            nth_error palette j
            = Some (color_pair
                      (depth_color (length gs)
                                   (Z.to_nat (LINES (Rain.screen self))) j))
            /\ 1 <= depth_color (length gs)
                                (Z.to_nat (LINES (Rain.screen self))) j
               <= Z.of_nat (length gs))
      /\ (forall j j',
            (j <= j')%nat ->
            depth_color (length gs) (Z.to_nat (LINES (Rain.screen self))) j
            <= depth_color (length gs)
                           (Z.to_nat (LINES (Rain.screen self))) j').
Proof.
  intros self gs. split; [reflexivity |]. split; [discriminate |].
  apply (palette_color_at_depth self quiet gs); [reflexivity | discriminate].
Defined.

(** ** One tick of the container *)

Lemma wp_drawn_speed (self : Rain.t) w :
  wp (Rain._random_falling_speed self)
     (fun speed w' => drawn_speed self speed /\ drew w w') w.
Proof.
  unfold Rain._random_falling_speed, uniform. apply wp_bind.
  eapply wp_mono; [apply wp_random |].
  intros u w' (lo & hi & d). apply wp_ret. split; [| exact d].
  exists u. auto.
Qed.

Lemma reset_rows (self : Column.t) (speed : Q) (w : World) :
  exists chars w',
    Column.reset self speed w
    = (Ok (Column.mk speed chars (Column.width self)), w')
    /\ drew w w'
    /\ map Character.x chars = map Character.x (Column.characters self)
    /\ map Character.color chars
       = map Character.color (Column.characters self)
    /\ Forall (fun s => display_width s = 2) (map Character.symbol chars)
    /\ map Character.y chars = staggered 0 (length (Column.characters self)).
Proof.
  destruct (reset_spec self speed w)
    as (glyphs & chars & w' & run & _ & d & cs & xs & wide2 & nth).
  exists chars, w'. split; [exact run |]. split; [exact d |].
  split; [exact xs |]. split; [exact cs |].
  split; [apply Forall_map_iff; exact wide2 |].
  assert (len : length chars = length (Column.characters self)).
  { rewrite <- (length_map Character.x chars), xs. apply length_map. }
  apply nth_error_ext. intros i. unfold staggered.
  rewrite !nth_error_map, nth_error_seq.
  destruct (Nat.ltb_spec i (length (Column.characters self))) as [lt | ge].
  - destruct (nth_error (Column.characters self) i) as [char |] eqn:found.
    2: { apply nth_error_None in found. lia. }
    destruct (nth i char found) as (char' & glyph & at_i & _ & row & _).
    rewrite at_i. cbn [option_map]. rewrite row. reflexivity.
  - assert (nth_error chars i = None) as -> by (apply nth_error_None; lia).
    reflexivity.
Qed.

Lemma step_column_ticks (self : Rain.t) (col : Column.t) (w : World) :
  exists col' w',
    Rain.step_column self col w = (Ok col', w')
    /\ tape w' = tape w
    /\ out w' = out w ++ step_events (LINES (Rain.screen self)) col
    /\ ticked self col col'.
Proof.
  unfold Rain.step_column, ticked.
  rewrite (bind_ok _ _ _ _ _ (step_writes_exactly col (Rain.screen self) w)).
  fold (step_events (LINES (Rain.screen self)) col).
  destruct (advance_frame (Column.min_falling_speed col)
                          (Column.characters col)) as (xs & ss & cs).
  destruct (existsb _ _); cbn [negb].
  - eexists _, _. split; [reflexivity |]. split; [reflexivity |].
    split; [reflexivity |]. split; [| split; [| reflexivity]].
    + unfold same_place. cbn [Column.width Column.characters]. auto.
    + cbn [Column.characters]. rewrite ss. auto.
  - set (w1 := mkWorld _ _ _).
    destruct (wp_drawn_speed self w1) as (speed & w2 & run2 & drawn & d2).
    set (col1 := Column.mk _ _ _).
    destruct (reset_rows col1 speed w2)
      as (chars & w3 & run3 & d3 & xs3 & cs3 & wide3 & rows3).
    exists (Column.mk speed chars (Column.width col1)), w3.
    split; [rewrite (bind_ok _ _ _ _ _ run2); exact run3 |].
    destruct d2 as [t2 o2], d3 as [t3 o3].
    split; [rewrite t3, t2; reflexivity |].
    split; [rewrite o3, o2; reflexivity |].
    cbn [col1 Column.characters Column.width] in *.
    rewrite length_map in rows3.
    split; [| split; [intros _; exact wide3 |
                      split; [exact drawn | exact rows3]]].
    unfold same_place. cbn [Column.width Column.characters].
    split; [reflexivity |]. split; congruence.
Qed.

Lemma tick_columns (self : Rain.t) (cols : list Column.t) :
  forall w,
  exists cols' w',
    mapM (Rain.step_column self) cols w = (Ok cols', w')
    /\ tape w' = tape w
    /\ out w'
       = out w ++ flat_map (step_events (LINES (Rain.screen self))) cols
    /\ Forall2 (ticked self) cols cols'.
Proof.
  induction cols as [| col cols IH]; intros w.
  - exists [], w. cbn. rewrite app_nil_r. auto.
  - destruct (step_column_ticks self col w) as (col' & w1 & run1 & t1 & o1 & k1).
    destruct (IH w1) as (cols' & w2 & run2 & t2 & o2 & k2).
    exists (col' :: cols'), w2. cbn [mapM flat_map].
    rewrite (bind_ok _ _ _ _ _ run1), (bind_ok _ _ _ _ _ run2).
    split; [reflexivity |]. split; [congruence |].
    split; [rewrite o2, o1, app_assoc; reflexivity | auto].
Qed.

(** X8. One tick of the container: every column is stepped as it stood at
    the start of the tick, in order, so the tick writes the columns' writes
    one column after the other, then refreshes the screen once and sleeps
    [time_step_sec] once. Each column stays in place; one that was on
    screen has advanced by its speed, one that was not is restaged from
    row 0 with a freshly drawn speed. Nothing else of the container
    changes. *)
Theorem tick_steps_every_column (self : Rain.t) (cols : list Column.t)
        (w : World) :
  Rain.columns self = Some cols ->
  exists cols' w',
    Rain.step self w
    = (Ok (Rain.mk (Rain.screen self) (Rain.time_step_sec self)
                   (Rain.min_falling_speed self) (Some cols')
                   (Rain.color_pairs self) (Rain.column_spacing self)), w')
    /\ out w'
       = out w
         ++ flat_map (step_events (LINES (Rain.screen self))) cols
         ++ [Refresh; Sleep (Rain.time_step_sec self)]
    /\ Forall2 (ticked self) cols cols'.
Proof.
  intros have.
  destruct (tick_columns self cols w) as (cols' & w1 & run & _ & o & all).
  eexists cols', _. split; [| split; [| exact all]].
  - unfold Rain.step. rewrite have.
    rewrite (bind_ok _ _ _ _ _ run). reflexivity.
  - cbn [out]. rewrite o, <- !app_assoc. reflexivity.
Qed.

Lemma tick_steps_every_column_witness :
  let col := Column.mk 1 [Character.mk 3 4 [65; 66] (color_pair 1)] 2 in
  let self := Rain.mk (mkScreen 24 80 256 true true) (1 # 100) (1 # 20)
                      (Some [col]) (Some [color_pair 1]) 2 in
  Rain.columns self = Some [col]
  /\ exists cols' w',
      Rain.step self quiet
      = (Ok (Rain.mk (Rain.screen self) (Rain.time_step_sec self)
                     (Rain.min_falling_speed self) (Some cols')
                     (Rain.color_pairs self) (Rain.column_spacing self)), w')
      /\ out w'
         = out quiet
           ++ flat_map (step_events (LINES (Rain.screen self))) [col]
           ++ [Refresh; Sleep (Rain.time_step_sec self)]
      /\ Forall2 (ticked self) [col] cols'.
Proof.
  intros col self. split; [reflexivity |].
  apply (tick_steps_every_column self [col] quiet). reflexivity.
Defined.

(** ** Through the animation *)

Lemma same_place_refl (col : Column.t) : same_place col col.
Proof. repeat split. Qed.

Lemma same_place_trans (c1 c2 c3 : Column.t) :
  same_place c1 c2 -> same_place c2 c3 -> same_place c1 c3.
Proof. intros (w1 & x1 & k1) (w2 & x2 & k2). repeat split; congruence. Qed.

Lemma Forall2_same_place_refl (cols : list Column.t) :
  Forall2 same_place cols cols.
Proof. induction cols; constructor; auto using same_place_refl. Qed.

Lemma Forall2_same_place_trans (l1 l2 l3 : list Column.t) :
  Forall2 same_place l1 l2 -> Forall2 same_place l2 l3 ->
  Forall2 same_place l1 l3.
Proof.
  intros first. revert l3.
  induction first as [| a b l1 l2 ab _ IH]; intros l3 second;
    inversion second; subst; constructor; eauto using same_place_trans.
Qed.

(** X9. Through any number of ticks the container keeps the same number
    of columns, each keeps its width, and every character keeps its [x] and
    its color; the screen, the tick length, the minimum speed, the palette
    and the spacing of the container do not change either. *)
Theorem animation_keeps_columns_in_place (polls : nat) :
  forall (self : Rain.t) (cols : list Column.t) (w : World),
    Rain.columns self = Some cols ->
    exists cols' w',
      animate polls self w
      = (Ok (Rain.mk (Rain.screen self) (Rain.time_step_sec self)
                     (Rain.min_falling_speed self) (Some cols')
                     (Rain.color_pairs self) (Rain.column_spacing self)), w')
      /\ length cols' = length cols
      /\ Forall2 same_place cols cols'.
Proof.
  induction polls as [| polls IH]; intros self cols w have.
  - exists cols, w. cbn [animate]. rewrite <- have. destruct self.
    split; [reflexivity |].
    split; [reflexivity | apply Forall2_same_place_refl].
  - destruct (tick_columns self cols w) as (cols1 & w1 & run & _ & _ & all).
    set (self1 := Rain.mk (Rain.screen self) (Rain.time_step_sec self)
                          (Rain.min_falling_speed self) (Some cols1)
                          (Rain.color_pairs self) (Rain.column_spacing self)).
    destruct (IH self1 cols1
                 (mkWorld (tape w1) (pos w1)
                          (out w1 ++ [Refresh]
                                 ++ [Sleep (Rain.time_step_sec self)]))
                 eq_refl)
      as (cols2 & w2 & run2 & len2 & all2).
    exists cols2, w2. split; [| split].
    + cbn [animate]. erewrite bind_ok; [exact run2 |].
      unfold Rain.step. rewrite have. rewrite (bind_ok _ _ _ _ _ run).
      unfold bind, emit, ret. cbn [tape pos out].
      rewrite <- app_assoc. reflexivity.
    + rewrite len2. symmetry. eapply Forall2_length. exact all.
    + eapply Forall2_same_place_trans; [| exact all2].
      eapply Forall2_impl; [| exact all]. intros a b [same _]. exact same.
Qed.

Lemma animation_keeps_columns_in_place_witness :
  let col := Column.mk 1 [Character.mk 3 4 [65; 66] (color_pair 1)] 2 in
  let self := Rain.mk (mkScreen 24 80 256 true true) (1 # 100) (1 # 20)
                      (Some [col]) (Some [color_pair 1]) 2 in
  Rain.columns self = Some [col]
  /\ exists cols' w',
      animate 5 self quiet
      = (Ok (Rain.mk (Rain.screen self) (Rain.time_step_sec self)
                     (Rain.min_falling_speed self) (Some cols')
                     (Rain.color_pairs self) (Rain.column_spacing self)), w')
      /\ length cols' = length [col]
      /\ Forall2 same_place [col] cols'.
Proof.
  intros col self. split; [reflexivity |].
  apply (animation_keeps_columns_in_place 5 self [col] quiet). reflexivity.
Defined.

Lemma drawn_speed_within (self : Rain.t) (speed : Q) :
  (0 <= Rain.min_falling_speed self)%Q ->
  drawn_speed self speed ->
  (Rain.min_falling_speed self <= speed)%Q
  /\ (speed <= Rain.min_falling_speed self * 10)%Q.
Proof.
  intros nonneg (u & lo & hi & ->).
  set (m := Rain.min_falling_speed self) in *. split; nra.
Qed.

Lemma ticked_speed_within (self : Rain.t) (col col' : Column.t) :
  (0 <= Rain.min_falling_speed self)%Q ->
  ticked self col col' ->
  speed_within (Rain.min_falling_speed self) col ->
  speed_within (Rain.min_falling_speed self) col'.
Proof.
  intros nonneg (_ & _ & moved) within.
  destruct (existsb _ _).
  - subst col'. exact within.
  - destruct moved as [drawn _]. apply drawn_speed_within; assumption.
Qed.

Lemma generated_speed_within (self : Rain.t) (palette : list attr) (x : Z) w :
  (0 <= Rain.min_falling_speed self)%Q ->
  Rain.color_pairs self = Some palette ->
  wp (Rain._generate_column self x)
     (fun col _ => speed_within (Rain.min_falling_speed self) col) w.
Proof.
  intros nonneg colors. unfold Rain._generate_column. apply wp_bind.
  eapply wp_mono; [apply wp_drawn_speed |].
  intros speed w1 [drawn _]. rewrite colors.
  destruct (init_spec (0, x) palette speed (Rain.column_spacing self) w1)
    as (chars & w2 & run & _).
  eexists _, w2. split; [exact run |].
  apply drawn_speed_within; assumption.
Qed.

Lemma animate_speed_within (polls : nat) :
  forall (self : Rain.t) (cols : list Column.t) (w : World),
    (0 <= Rain.min_falling_speed self)%Q ->
    Rain.columns self = Some cols ->
    Forall (speed_within (Rain.min_falling_speed self)) cols ->
    exists self' cols' w',
      animate polls self w = (Ok self', w')
      /\ Rain.columns self' = Some cols'
      /\ Forall (speed_within (Rain.min_falling_speed self)) cols'.
Proof.
  induction polls as [| polls IH]; intros self cols w nonneg have within.
  - exists self, cols, w. auto.
  - destruct (tick_columns self cols w) as (cols1 & w1 & run & _ & _ & all).
    set (self1 := Rain.mk (Rain.screen self) (Rain.time_step_sec self)
                          (Rain.min_falling_speed self) (Some cols1)
                          (Rain.color_pairs self) (Rain.column_spacing self)).
    assert (within1 : Forall (speed_within (Rain.min_falling_speed self))
                             cols1).
    { clear - nonneg all within.
      induction all as [| a b l l' k _ IH]; [constructor |].
      inversion within; subst.
      constructor; [eapply ticked_speed_within; eassumption | auto]. }
    destruct (IH self1 cols1
                 (mkWorld (tape w1) (pos w1)
                          (out w1 ++ [Refresh]
                                 ++ [Sleep (Rain.time_step_sec self)]))
                 nonneg eq_refl within1)
      as (self2 & cols2 & w2 & run2 & have2 & within2).
    exists self2, cols2, w2. split; [| auto].
    cbn [animate]. erewrite bind_ok; [exact run2 |].
    unfold Rain.step. rewrite have. rewrite (bind_ok _ _ _ _ _ run).
    unfold bind, emit, ret. cbn [tape pos out].
    rewrite <- app_assoc. reflexivity.
Qed.

(** X10. When the minimum falling speed is not negative, every column of
    the container, from the moment the columns are generated and through
    any number of ticks and restagings, falls at a speed between the
    minimum speed and ten times the minimum speed, both included: the
    bounds [random.uniform] documents, here with the speed computed in
    exact arithmetic. *)
Theorem speeds_stay_within_range
        (screen : Screen) (time_step_sec min_falling_speed : Q)
        (palette : list attr) (polls : nat) (w : World) :
  (0 <= min_falling_speed)%Q ->
  let self := Rain.mk screen time_step_sec min_falling_speed None
                      (Some palette) 2 in
  exists self1 cols1 w1 self2 cols2 w2,
    Rain.generate_all_columns self w = (Ok self1, w1)
    /\ Rain.columns self1 = Some cols1
    /\ Forall (speed_within min_falling_speed) cols1
    /\ animate polls self1 w1 = (Ok self2, w2)
    /\ Rain.columns self2 = Some cols2
    /\ Forall (speed_within min_falling_speed) cols2.
Proof.
  intros nonneg self.
  destruct (wp_mapM (Rain._generate_column self)
                    (fun _ col => speed_within min_falling_speed col)
                    (fun _ => True)
                    (range_items 0 (COLS screen - 2) 2))
    with (w := w) as (cols1 & w1 & run & all & _).
  - intros x w0 _ _. eapply wp_mono.
    + apply (generated_speed_within self palette x w0 nonneg eq_refl).
    + intros col w' within. split; [exact within | exact I].
  - exact I.
  - apply Forall2_right in all.
    set (self1 := Rain.mk screen time_step_sec min_falling_speed (Some cols1)
                          (Some palette) 2).
    destruct (animate_speed_within polls self1 cols1 w1 nonneg eq_refl all)
      as (self2 & cols2 & w2 & run2 & have2 & within2).
    exists self1, cols1, w1, self2, cols2, w2.
    split; [| auto 6].
    unfold self1, self in *.
    unfold Rain.generate_all_columns, range, getmaxyx.
    cbn [snd Rain.screen Rain.column_spacing Z.eqb].
    unfold bind at 1, ret at 1.
    rewrite (bind_ok _ _ _ _ _ run). reflexivity.
Qed.

Lemma speeds_stay_within_range_witness :
  let screen := mkScreen 24 80 256 true true in
  let self := Rain.mk screen (1 # 100) (1 # 20) None
                      (Some [color_pair 1]) 2 in
  (0 <= 1 # 20)%Q
  /\ exists self1 cols1 w1 self2 cols2 w2,
      Rain.generate_all_columns self quiet = (Ok self1, w1)
      /\ Rain.columns self1 = Some cols1
      /\ Forall (speed_within (1 # 20)) cols1
      /\ animate 3 self1 w1 = (Ok self2, w2)
      /\ Rain.columns self2 = Some cols2
      /\ Forall (speed_within (1 # 20)) cols2.
Proof.
  intros screen self. split; [discriminate |].
  apply (speeds_stay_within_range screen (1 # 100) (1 # 20) [color_pair 1]
                                  3 quiet). discriminate.
Defined.

(** ** The glyph source, whatever the chance *)

Lemma random_exact w :
  exists u,
    random w = (Ok u, mkWorld (tape w) (S (pos w)) (out w))
    /\ (0 <= u)%Q /\ (u < 1)%Q.
Proof.
  destruct (wp_random w) as (u & w' & run & lo & hi & _).
  exists u. split; [| auto].
  unfold random, bind, draw, ret in *. injection run as <- <-. reflexivity.
Qed.

Lemma choice_exact {A} (seq : list A) w :
  seq <> [] ->
  exists a,
    choice seq w = (Ok a, mkWorld (tape w) (S (pos w)) (out w))
    /\ In a seq.
Proof.
  intros ne. destruct (wp_choice seq w ne) as (a & w' & run & ina & _).
  exists a. split; [| exact ina].
  destruct seq as [| d seq]; [contradiction |].
  unfold choice, randbelow, bind, draw, ret in *.
  injection run as <- <-. reflexivity.
Qed.

(** X11. Whatever the latin chance, [random_character] never raises and
    writes nothing, and its token is either two characters of the Latin
    set, at the cost of three random draws, or one character of the
    Katakana, Hiragana and Kangxi set, at the cost of two; either way the
    token is two display cells wide. A chance of 1 or more always gives
    the Latin pair, a chance of 0 or less never does. *)
Theorem random_character_token (latin_chance : Q) (w : World) :
  exists s w',
    random_character latin_chance w = (Ok s, w')
    /\ tape w' = tape w
    /\ out w' = out w
    /\ display_width s = 2
    /\ ((exists a b,
            s = [a; b]
            /\ In a (ascii_letters ++ digits ++ punctuation)
            /\ In b (ascii_letters ++ digits ++ punctuation)
            /\ pos w' = (pos w + 3)%nat
            /\ (0 < latin_chance)%Q)
        \/ (exists c,
               s = [c]
               /\ In c (KATAKANA ++ HIRAGANA ++ KANGXI)
               /\ pos w' = (pos w + 2)%nat
               /\ (latin_chance < 1)%Q)).
Proof.
  destruct (random_exact w) as (u & run & lo & hi).
  unfold random_character. rewrite (bind_ok _ _ _ _ _ run).
  destruct (Qlt_le_dec u latin_chance) as [below | above].
  - destruct (choice_exact LATIN (mkWorld (tape w) (S (pos w)) (out w))
                           LATIN_nonempty) as (a & runa & ina).
    cbn [tape pos out] in runa.
    destruct (choice_exact LATIN (mkWorld (tape w) (S (S (pos w))) (out w))
                           LATIN_nonempty) as (b & runb & inb).
    cbn [tape pos out] in runb.
    rewrite (bind_ok _ _ _ _ _ runa), (bind_ok _ _ _ _ _ runb).
    pose proof LATIN_narrow as narrow. rewrite Forall_forall in narrow.
    pose proof (narrow a ina) as wa. pose proof (narrow b inb) as wb.
    apply in_map_iff in ina. destruct ina as (ca & <- & ina).
    apply in_map_iff in inb. destruct inb as (cb & <- & inb).
    eexists _, _. split; [reflexivity |]. cbn [tape pos out].
    split; [reflexivity |]. split; [reflexivity |]. split.
    + change (chr ca ++ chr cb) with ([ca] ++ [cb]).
      rewrite display_width_app. exact (f_equal2 Z.add wa wb).
    + left. exists ca, cb. split; [reflexivity |].
      split; [exact ina |]. split; [exact inb |].
      split; [lia |]. eapply Qle_lt_trans; eassumption.
  - destruct (choice_exact NON_LATIN (mkWorld (tape w) (S (pos w)) (out w))
                           NON_LATIN_nonempty) as (s & runs & ins).
    cbn [tape pos out] in runs. rewrite runs.
    pose proof NON_LATIN_wide as wd. rewrite Forall_forall in wd.
    pose proof (wd s ins) as ws.
    apply in_map_iff in ins. destruct ins as (c & <- & inc).
    eexists _, _. split; [reflexivity |]. cbn [tape pos out].
    split; [reflexivity |]. split; [reflexivity |]. split; [exact ws |].
    right. exists c. split; [reflexivity |]. split; [exact inc |].
    split; [lia |]. eapply Qle_lt_trans; eassumption.
Qed.

(** ** Building a column *)

(** X12. A freshly built column has the speed and width it was given and
    one character per palette entry; the character at depth [i] has the
    [i]-th palette color, the head's [x], the row [i] rows above the head
    and a glyph two cells wide. Building it writes nothing. *)
Theorem column_is_staggered_from_head
        (head : Z * Z) (colors : list attr) (speed : Q) (width : Z)
        (w : World) :
  exists col w',
    Column.__init__ head colors speed width w = (Ok col, w')
    /\ out w' = out w
    /\ Column.min_falling_speed col = speed
    /\ Column.width col = width
    /\ length (Column.characters col) = length colors
    /\ map Character.color (Column.characters col) = colors
    /\ map Character.x (Column.characters col)
       = repeat (snd head) (length colors)
    /\ map Character.y (Column.characters col)
       = map (fun i => inject_Z (fst head - Z.of_nat i))
             (seq 0 (length colors))
    /\ Forall (fun char => display_width (Character.symbol char) = 2)
              (Column.characters col).
Proof.
  destruct (init_spec head colors speed width w)
    as (chars & w' & run & d & cs & xs & wide2 & _).
  destruct (init_rows head colors speed width w)
    as (col & w'' & run' & _ & len & rows).
  rewrite run in run'. injection run' as <- <-.
  eexists _, w'. split; [exact run |]. cbn [Column.characters] in *.
  split; [apply d |]. split; [reflexivity |]. split; [reflexivity |].
  split; [exact len |]. split; [exact cs |].
  split; [rewrite xs; apply map_const |].
  split; [exact rows | exact wide2].
Qed.

(** ** Calling the container out of order *)

(** X13. [generate_all_columns] needs the palette: on a container whose
    palette was never generated it raises [TypeError], having written
    nothing, as soon as the screen is wider than the column spacing, and
    returns no column at all on a narrower screen. [step] needs the
    columns: before they are generated it raises [TypeError] and leaves
    the world as it was. *)
Theorem container_calls_out_of_order
        (screen : Screen) (time_step_sec min_falling_speed : Q) (w : World) :
  let self := Rain.__init__ screen time_step_sec min_falling_speed in
  Rain.step self w = (Raise TypeError, w)
  /\ (2 < COLS screen ->
      fst (Rain.generate_all_columns self w) = Raise TypeError
      /\ out (snd (Rain.generate_all_columns self w)) = out w)
  /\ (COLS screen <= 2 ->
      exists self',
        Rain.generate_all_columns self w = (Ok self', w)
        /\ Rain.columns self' = Some []).
Proof.
  intros self. split; [reflexivity |]. split.
  - intros wide. unfold Rain.generate_all_columns, range, getmaxyx.
    cbn [snd self Rain.__init__ Rain.screen Rain.column_spacing Z.eqb].
    unfold bind at 1, ret at 1. unfold range_items.
    rewrite range_len_up by lia.
    assert (some : 0 <= (COLS screen - 2 - 0 - 1) / 2).
    { apply Z.div_pos; lia. }
    replace (Z.to_nat ((COLS screen - 2 - 0 - 1) / 2 + 1))
      with (S (Z.to_nat ((COLS screen - 2 - 0 - 1) / 2))) by lia.
    cbn [seq map mapM]. unfold Rain._generate_column at 1.
    destruct (wp_random_falling_speed self w) as (speed & w1 & run & _ & o).
    unfold bind. rewrite run. unfold raise.
    cbn [fst snd]. auto.
  - intros narrow. unfold Rain.generate_all_columns, range, getmaxyx.
    cbn [snd self Rain.__init__ Rain.screen Rain.column_spacing Z.eqb].
    unfold bind at 1, ret at 1. unfold range_items.
    rewrite range_len_up_empty by lia. cbn [Z.to_nat seq map mapM].
    eexists. split; reflexivity.
Qed.

(** ** How many columns *)

Lemma slots_count (width : Z) :
  length (range_items 0 (width - 2) 2) = Z.to_nat ((width - 1) / 2).
Proof.
  rewrite range_items_length.
  destruct (Z_lt_le_dec 2 width) as [wide | narrow].
  - rewrite range_len_up by lia.
    replace (width - 1) with (width - 2 - 0 - 1 + 1 * 2) by lia.
    rewrite Z.div_add by lia. reflexivity.
  - rewrite range_len_up_empty by lia.
    assert ((width - 1) / 2 < 1); [| lia].
    apply Z.div_lt_upper_bound; lia.
Qed.

(** ** The last cell of a row *)

Lemma step_events_steps (max_y : Z) (col : Column.t) :
  Forall (steps max_y col) (step_events max_y col).
Proof.
  set (screen := mkScreen max_y 0 0 false false).
  destruct (step_spec col screen quiet) as (w' & run & _ & _ & evs & o & f).
  rewrite step_writes_exactly in run. injection run as <-.
  cbn [out quiet app] in o. fold (step_events max_y col) in o.
  rewrite o. exact f.
Qed.

Lemma step_events_inside (screen : Screen) (col : Column.t) :
  inside screen col ->
  Forall (clear_of_edge screen) (step_events (LINES screen) col).
Proof.
  intros (wd & xs & ss).
  eapply Forall_impl; [| apply step_events_steps].
  intros e [(char & inc & vis & ->) | (char & y & inc & er)].
  - rewrite Forall_forall in xs, ss.
    specialize (xs _ (in_map Character.x _ _ inc)).
    specialize (ss _ (in_map Character.symbol _ _ inc)).
    unfold visible, is_on_screen in vis. simpl. rewrite ss. lia.
  - destruct er as (row & range & _ & ->).
    rewrite Forall_forall in xs.
    specialize (xs _ (in_map Character.x _ _ inc)).
    simpl. rewrite wd. change (display_width (spaces 2)) with 2. lia.
Qed.

Lemma ticked_inside (self : Rain.t) (col col' : Column.t) :
  ticked self col col' ->
  inside (Rain.screen self) col -> inside (Rain.screen self) col'.
Proof.
  intros ((wd' & xs' & _) & glyphs & _) (wd & xs & ss).
  unfold inside. rewrite wd', xs'. auto.
Qed.

Lemma animate_inside (polls : nat) :
  forall (self : Rain.t) (cols : list Column.t) (w : World),
    Rain.columns self = Some cols ->
    Forall (inside (Rain.screen self)) cols ->
    exists self' w' evs,
      animate polls self w = (Ok self', w')
      /\ out w' = out w ++ evs
      /\ Forall (clear_of_edge (Rain.screen self)) evs.
Proof.
  induction polls as [| polls IH]; intros self cols w have ok.
  - exists self, w, []. rewrite app_nil_r. auto.
  - destruct (tick_columns self cols w) as (cols1 & w1 & run & _ & o1 & all).
    set (self1 := Rain.mk (Rain.screen self) (Rain.time_step_sec self)
                          (Rain.min_falling_speed self) (Some cols1)
                          (Rain.color_pairs self) (Rain.column_spacing self)).
    assert (ok1 : Forall (inside (Rain.screen self1)) cols1).
    { clear - all ok. cbn [self1 Rain.screen].
      induction all as [| a b l l' k _ IH]; [constructor |].
      inversion ok; subst.
      constructor; [eapply ticked_inside; eassumption | auto]. }
    destruct (IH self1 cols1
                 (mkWorld (tape w1) (pos w1)
                          (out w1 ++ [Refresh]
                                 ++ [Sleep (Rain.time_step_sec self)]))
                 eq_refl ok1)
      as (self2 & w2 & evs & run2 & o2 & f2).
    exists self2, w2,
      (flat_map (step_events (LINES (Rain.screen self))) cols
       ++ [Refresh; Sleep (Rain.time_step_sec self)] ++ evs).
    split; [| split].
    + cbn [animate]. erewrite bind_ok; [exact run2 |].
      unfold Rain.step. rewrite have. rewrite (bind_ok _ _ _ _ _ run).
      unfold bind, emit, ret. cbn [tape pos out].
      rewrite <- app_assoc. reflexivity.
    + rewrite o2. cbn [out]. rewrite o1, <- !app_assoc. reflexivity.
    + apply Forall_app. split.
      * apply Forall_flat_map. eapply Forall_impl; [| exact ok].
        intros col. apply step_events_inside.
      * constructor; [exact I |]. constructor; [exact I | exact f2].
Qed.

Lemma generated_columns_inside (self : Rain.t) (palette : list attr) w :
  Rain.color_pairs self = Some palette ->
  Rain.column_spacing self = 2 ->
  exists cols w',
    Rain.generate_all_columns self w
    = (Ok (Rain.mk (Rain.screen self) (Rain.time_step_sec self)
                   (Rain.min_falling_speed self) (Some cols)
                   (Rain.color_pairs self) (Rain.column_spacing self)), w')
    /\ drew w w'
    /\ length cols = Z.to_nat ((COLS (Rain.screen self) - 1) / 2)
    /\ Forall (inside (Rain.screen self)) cols.
Proof.
  intros colors two.
  destruct (generate_all_columns_spec self palette w colors)
    as (cols & w1 & run & d & all); [lia |].
  exists cols, w1. split; [exact run |]. split; [exact d |].
  rewrite two in all. split.
  - rewrite <- slots_count. symmetry. eapply Forall2_length. exact all.
  - assert (slots : Forall (fun x => 0 <= x < COLS (Rain.screen self) - 2)
                           (range_items 0 (COLS (Rain.screen self) - 2) 2)).
    { apply Forall_forall. intros x inx.
      apply In_range_items in inx; [tauto | lia]. }
    clear run. revert slots.
    induction all as [| x col xs cols' b _ IH]; intros slots.
    + constructor.
    + inversion slots as [| ? ? range rest]; subst. constructor; [| auto].
      destruct b as (wd & _ & at_x & wide2).
      split; [congruence |]. split; [| exact wide2].
      rewrite at_x. apply Forall_map_iff, Forall_forall. intros _ _. lia.
Qed.

(** X14. With the spacing 2 of the program, a screen [COLS] cells wide
    gets [(COLS - 1) / 2] columns (none below 3 cells), and once they are
    generated no write of the animation, drawing or erasing, ever reaches
    the last cell of a row: every write ends strictly before it, on a row
    of the screen. *)
Theorem last_cell_is_never_written
        (screen : Screen) (time_step_sec min_falling_speed : Q)
        (palette : list attr) (polls : nat) (w : World) :
  let self := Rain.mk screen time_step_sec min_falling_speed None
                      (Some palette) 2 in
  exists self1 cols w1 self2 w2 evs,
    Rain.generate_all_columns self w = (Ok self1, w1)
    /\ Rain.columns self1 = Some cols
    /\ length cols = Z.to_nat ((COLS screen - 1) / 2)
    /\ animate polls self1 w1 = (Ok self2, w2)
    /\ out w2 = out w ++ evs
    /\ Forall (clear_of_edge screen) evs.
Proof.
  intros self.
  destruct (generated_columns_inside self palette w eq_refl eq_refl)
    as (cols & w1 & run & d & count & ok).
  set (self1 := Rain.mk _ _ _ (Some cols) _ _) in run.
  destruct (animate_inside polls self1 cols w1 eq_refl ok)
    as (self2 & w2 & evs & run2 & o2 & f2).
  exists self1, cols, w1, self2, w2, evs.
  split; [exact run |]. split; [reflexivity |]. split; [exact count |].
  split; [exact run2 |]. split; [| exact f2].
  rewrite o2. f_equal. apply d.
Qed.

(** ** The program from start to end *)




